(** * Principal component analysis

    A shallow embedding of the computation narrated by
    [learning/unsupervised/principal_component_analysis.ipynb]:

      Step 1  z-score normalization      z = (x - mu) / sigma
      Step 2  covariance matrix          Sigma = (1/n) X^T X
      Step 3  eigen decomposition        Sigma v = lambda v, sorted by
                                         decreasing eigenvalue
      Step 4  top-k components           W_k = [v_1, ..., v_k]
      Step 5  projection                 Z = X_centered W_k

    The notebook works with a dataset X in R^(n x d).  Here the scalars
    are the elements of an arbitrary real closed field [R] (an ordered
    field with square roots in which sign-changing polynomials have
    roots), and a dataset is a matrix ['M[R]_(n, d)] whose rows are the
    samples.  Computations are exact, so an equality below is an equality
    within every tolerance.  The field inverse is total with [0^-1 = 0];
    a statement that depends on a division being meaningful carries the
    corresponding side condition.  The worked examples run over [algR],
    the field of real algebraic numbers.

    Part I holds the definitions of the pipeline, Part II their theory,
    including the existence of an eigen decomposition for every symmetric
    matrix, Part III the properties of the pipeline, and Part IV further
    properties: of the statistics under a change of units, of the entries
    of the covariance matrix, and of the variance that a projection keeps
    and loses. *)

From HB Require Import structures.
From mathcomp Require Import boot order algebra.
From mathcomp Require Import algC.

Set Implicit Arguments.
Unset Strict Implicit.
Unset Printing Implicit Defensive.

Import GRing.Theory Num.Theory Order.Theory.
Local Open Scope ring_scope.

(** * Part I: the pipeline *)

(** ** Step 1: per-feature statistics and z-score normalization *)

Section Standardizer.

Variables (R : rcfType) (n d : nat).
Implicit Types (X : 'M[R]_(n, d)) (i : 'I_n) (j : 'I_d).

(** mu_j: the mean of feature column j. *)
Definition mu X j : R := (\sum_i X i j) / n%:R.

(** The centered dataset: every column has its mean removed. *)
Definition center X : 'M[R]_(n, d) := \matrix_(i, j) (X i j - mu X j).

(** Population variance of feature j: the squared deviations are divided
    by n (not n - 1), the convention of Sigma = (1/n) X^T X below and of
    the StandardScaler the notebook calls. *)
Definition variance X j : R := (\sum_i (X i j - mu X j) ^+ 2) / n%:R.

(** sigma_j: the standard deviation of feature column j. *)
Definition sigma X j : R := Num.sqrt (variance X j).

(** z_ij = (x_ij - mu_j) / sigma_j. *)
Definition zscore X : 'M[R]_(n, d) :=
  \matrix_(i, j) ((X i j - mu X j) / sigma X j).

(** ** Step 2: the covariance matrix Sigma = (1/n) X^T X,
    computed entry by entry as the averaged product of two columns. *)
Definition covariance X : 'M[R]_d :=
  \matrix_(a, b) ((\sum_i X i a * X i b) / n%:R).

End Standardizer.

(** ** Step 3: eigenpairs of a square matrix *)

Section EigenPairs.

Variables (R : rcfType) (d : nat).

(** An eigenpair (lambda, v): a scalar and a column vector of length d. *)
Definition eigenpair : Type := (R * 'cV[R]_d)%type.

Implicit Types (A : 'M[R]_d) (p q : eigenpair) (ps : seq eigenpair).
Implicit Types (u v : 'cV[R]_d).

Definition dot u v : R := \sum_i u i 0 * v i 0.

(** The eigen equation of the notebook: Sigma v = lambda v. *)
Definition is_eigenpair A p : bool := A *m p.2 == p.1 *: p.2.

Definition unit_length p : bool := dot p.2 p.2 == 1.

Definition orthogonal p q : bool := dot p.2 q.2 == 0.

(** Unit-length, mutually orthogonal eigenvectors. *)
Definition orthonormal ps : bool :=
  all unit_length ps && pairwise orthogonal ps.

(** A full decomposition of A: exactly d eigenpairs of A with orthonormal
    eigenvectors. *)
Definition eigen_system A ps : bool :=
  [&& size ps == d, orthonormal ps & all (is_eigenpair A) ps].

Definition eigenvalues ps : seq R := [seq p.1 | p <- ps].

(** ** Step 4: W_k = [v_1, ..., v_k], the first k eigenvectors as the
    columns of a d x k matrix, and the row of their eigenvalues. *)
Definition components k ps : 'M[R]_(d, k) :=
  \matrix_(i, j) (nth (0, 0) ps j).2 i 0.

Definition spectrum k ps : 'rV[R]_k := \row_j (nth (0, 0) ps j).1.

(** ** Step 5: Z = X_centered W_k, and the way back Z W_k^T. *)
Definition project n (X : 'M[R]_(n, d)) k (W : 'M[R]_(d, k)) : 'M[R]_(n, k) :=
  X *m W.

Definition reconstruct n k (Z : 'M[R]_(n, k)) (W : 'M[R]_(d, k)) :
  'M[R]_(n, d) := Z *m W^T.

End EigenPairs.

(** ** Step 3, ordering: biggest variance first *)

Section Ordering.

Variables (R : rcfType) (d : nat).
Implicit Types (ps : seq (eigenpair R d)) (a b c : nat * eigenpair R d).

(** Every pair is tagged with the position it has before the sort. *)
Definition indexed ps : seq (nat * eigenpair R d) := zip (iota 0 (size ps)) ps.

(** Modelled from the spec: pairs are compared by eigenvalue, the bigger
    one first, and two pairs with the same eigenvalue by the position
    they had before the sort.  The notebook itself only says that the
    eigenvectors are sorted by decreasing eigenvalue. *)
Definition eigen_order a b : bool :=
  (b.2.1 < a.2.1) || ((a.2.1 == b.2.1) && (a.1 <= b.1)%N).

Definition sort_indexed ps : seq (nat * eigenpair R d) :=
  sort eigen_order (indexed ps).

Definition sort_eigenpairs ps : seq (eigenpair R d) := unzip2 (sort_indexed ps).

End Ordering.

(** ** Explained variance *)

Section ExplainedVariance.

Variable R : rcfType.
Implicit Types lams s : seq R.

(** Modelled from the spec: the explained-variance ratio of a component is
    its eigenvalue divided by the sum of all eigenvalues.  The notebook
    reads the ratios off scikit-learn's [explained_variance_ratio_] and
    accumulates them with [cumsum()]. *)
Definition total_variance lams : R := \sum_(l <- lams) l.

Definition explained_variance_ratio lams : seq R :=
  [seq l / total_variance lams | l <- lams].

Definition cumsum s : seq R := scanl +%R 0 s.

End ExplainedVariance.

(** ** Step 1 on constant features *)


Section DegenerateFeatures.

Variables (R : rcfType) (n d : nat).
Implicit Types (X : 'M[R]_(n, d)) (j : 'I_d).

Definition constant_feature X j : Prop := forall i i', X i j = X i' j.



End DegenerateFeatures.

(** ** Concrete datasets *)

Section Datasets.

Variable R : rcfType.

(** A dataset written as the list of its rows. *)
Definition dataset_of n d (rows : seq (seq R)) : 'M[R]_(n, d) :=
  \matrix_(i, j) nth 0 (nth [::] rows i) j.

(** The dataset [[2,0],[0,2],[-2,0],[0,-2]]: n = 4, d = 2. *)
Definition scenario : 'M[R]_(4, 2) :=
  dataset_of 4 2 [:: [:: 2; 0]; [:: 0; 2]; [:: -2; 0]; [:: 0; -2]].

(** The dataset [[1],[-1]]: n = 2, d = 1, with its single eigenpair. *)
Definition sample : 'M[R]_(2, 1) := dataset_of 2 1 [:: [:: 1]; [:: -1]].

Definition sample_pairs : seq (eigenpair R 1) := [:: (1, const_mx 1)].

(** The dataset [[3],[3]]: a single constant feature. *)
Definition flat : 'M[R]_(2, 1) := dataset_of 2 1 [:: [:: 3]; [:: 3]].

Definition flat_pairs : seq (eigenpair R 1) := [:: (0, const_mx 1)].

End Datasets.

(** ** Changes of unit, and what a projection loses *)

Section Units.

Variables (R : rcfType) (n d : nat).
Implicit Types (X : 'M[R]_(n, d)) (a b : 'rV[R]_d) (i : 'I_n) (j : 'I_d).

(** A change of units: feature j is multiplied by a_j, then shifted by
    b_j. *)
Definition rescale a b X : 'M[R]_(n, d) :=
  \matrix_(i, j) (a 0 j * X i j + b 0 j).

(** A shift of the means: b_j is added to feature j. *)
Definition shift b X : 'M[R]_(n, d) := rescale (const_mx 1) b X.

End Units.

Section Residual.

Variables (R : rcfType) (n d : nat).

(** What the projection on the columns of W loses of X. *)
Definition residual (X : 'M[R]_(n, d)) k (W : 'M[R]_(d, k)) : 'M[R]_(n, d) :=
  X - reconstruct (project X W) W.

(** The mean over the samples of the squared length of a row. *)
Definition mean_square (E : 'M[R]_(n, d)) : R :=
  (\sum_i \sum_j E i j ^+ 2) / n%:R.

End Residual.

(** ** Further datasets *)

Section FurtherDatasets.

Variable R : rcfType.

(** The two coordinate axes of R^2, each paired with the eigenvalue 2: an
    eigen decomposition of the covariance matrix of [scenario]. *)
Definition axis_pairs : seq (eigenpair R 2) :=
  [:: (2, delta_mx 0 0); (2, delta_mx (lift ord0 ord0) 0)].

(** The dataset [[0,0],[1,2]]: n = 2, d = 2, two features that increase
    together. *)
Definition trend : 'M[R]_(2, 2) := dataset_of 2 2 [:: [:: 0; 0]; [:: 1; 2]].

End FurtherDatasets.

(** * Part II: theory *)

(** ** The statistics *)

Section StandardizerTheory.

Variables (R : rcfType) (n d : nat).
Implicit Types (X : 'M[R]_(n, d)) (i : 'I_n) (j : 'I_d).

Lemma sum_center X j : \sum_i (X i j - mu X j) = 0.
Proof.
rewrite sumrB sumr_const card_ord /mu.
case: n X => [|m] X; first by rewrite big_ord0 mulr0n subr0.
by rewrite -mulr_natr divfK ?pnatr_eq0 // subrr.
Qed.

Lemma mu_center X j : mu (center X) j = 0.
Proof.
rewrite /mu (eq_bigr (fun i => X i j - mu X j)) ?sum_center ?mul0r //.
by move=> i _; rewrite mxE.
Qed.

Lemma variance_ge0 X j : 0 <= variance X j.
Proof.
rewrite /variance divr_ge0 ?ler0n // sumr_ge0 // => i _.
exact: sqr_ge0.
Qed.

Lemma sigma_sqr X j : sigma X j ^+ 2 = variance X j.
Proof. by rewrite /sigma sqr_sqrtr ?variance_ge0. Qed.

Lemma sigma_neq0_samples X j : sigma X j != 0 -> (0 < n)%N.
Proof.
case: n X => [|//] X.
by rewrite /sigma /variance invr0 mulr0 sqrtr0 eqxx.
Qed.

Lemma mu_zscore X j : mu (zscore X) j = 0.
Proof.
rewrite /mu (eq_bigr (fun i => (X i j - mu X j) / sigma X j)).
  by move=> i _; rewrite mxE.
by rewrite -mulr_suml sum_center !mul0r.
Qed.

Lemma variance_zscore X j : sigma X j != 0 -> variance (zscore X) j = 1.
Proof.
move=> s0; rewrite /variance.
rewrite (eq_bigr (fun i => (X i j - mu X j) ^+ 2 / sigma X j ^+ 2)).
  by move=> i _; rewrite mu_zscore subr0 mxE exprMn exprVn.
rewrite -mulr_suml mulrAC -[X in X / _]/(variance X j) -sigma_sqr.
by rewrite divff // expf_neq0.
Qed.

Lemma covarianceE X : covariance X = n%:R^-1 *: (X^T *m X).
Proof.
apply/matrixP => a b; rewrite !mxE mulrC; congr (_ * _).
by apply: eq_bigr => i _; rewrite mxE.
Qed.

Lemma covariance_diag_centered X j :
  mu X j = 0 -> covariance X j j = variance X j.
Proof.
move=> mu0; rewrite mxE /variance; congr (_ / _).
by apply: eq_bigr => i _; rewrite mu0 subr0 expr2.
Qed.

Lemma covariance_sym X : (covariance X)^T = covariance X.
Proof.
apply/matrixP => a b; rewrite !mxE; congr (_ / _).
by apply: eq_bigr => i _; rewrite mulrC.
Qed.

End StandardizerTheory.

(** ** Eigenpairs and the component matrix *)

Section EigenPairsTheory.

Variables (R : rcfType) (d : nat).
Implicit Types (A V : 'M[R]_d) (p q : eigenpair R d).
Implicit Types (ps qs : seq (eigenpair R d)) (u v : 'cV[R]_d).

Lemma dotE u v : dot u v = (u^T *m v) 0 0.
Proof. by rewrite mxE; apply: eq_bigr => i _; rewrite mxE. Qed.

Lemma dotC u v : dot u v = dot v u.
Proof. by apply: eq_bigr => i _; rewrite mulrC. Qed.

Lemma orthogonal_sym : symmetric (@orthogonal R d).
Proof. by move=> p q; rewrite /orthogonal dotC. Qed.

Lemma orthonormal_nth ps (a b : nat) :
  orthonormal ps -> (a < size ps)%N -> (b < size ps)%N ->
  dot (nth (0, 0) ps a).2 (nth (0, 0) ps b).2 = (a == b)%:R.
Proof.
case/andP=> /all_nthP-/(_ (0, 0)) unit_ps /(pairwiseP (0, 0)) orth_ps a_lt b_lt.
have [<-|] := eqVneq a b; first exact/eqP/unit_ps.
rewrite neq_ltn => /orP[] lt_ab; first exact/eqP/orth_ps.
by rewrite dotC; apply/eqP/orth_ps.
Qed.

Lemma components_orthonormal k ps :
  orthonormal ps -> (k <= size ps)%N ->
  (components k ps)^T *m components k ps = 1%:M.
Proof.
move=> on_ps le_k; apply/matrixP => a b; rewrite !mxE.
have a_lt : (a < size ps)%N := leq_trans (ltn_ord a) le_k.
have b_lt : (b < size ps)%N := leq_trans (ltn_ord b) le_k.
rewrite -(inj_eq val_inj) /= -(orthonormal_nth on_ps a_lt b_lt).
by apply: eq_bigr => i _; rewrite !mxE.
Qed.

Lemma components_eigen A k ps :
  all (is_eigenpair A) ps -> (k <= size ps)%N ->
  A *m components k ps = components k ps *m diag_mx (spectrum k ps).
Proof.
move=> /all_nthP-/(_ (0, 0)) eig_ps le_k; apply/matrixP => i b.
rewrite mul_mx_diag !mxE.
have /eqP/matrixP/(_ i 0) := eig_ps b (leq_trans (ltn_ord b) le_k).
rewrite !mxE mulrC => <-.
by apply: eq_bigr => j _; rewrite !mxE.
Qed.

Lemma perm_pairwise (T : eqType) (r : rel T) :
  symmetric r -> forall s t : seq T, perm_eq s t -> pairwise r s = pairwise r t.
Proof.
move=> r_sym; apply: catCA_perm_subst => s1 s2 s3.
rewrite !pairwise_cat !allrel_catr [allrel r s2 s1]allrelC.
rewrite (@eq_allrel _ _ (fun y : T => r^~ y) r) => [x y /=|]; first exact: r_sym.
by rewrite -!andbA; do !bool_congr.
Qed.

Lemma perm_eigen_system A ps qs :
  perm_eq ps qs -> eigen_system A ps = eigen_system A qs.
Proof.
move=> perm_pq; rewrite /eigen_system /orthonormal (perm_size perm_pq).
rewrite (perm_all _ perm_pq) (perm_all _ perm_pq).
by rewrite (perm_pairwise orthogonal_sym perm_pq).
Qed.

Lemma eigen_systemP (A : 'M[R]_d) ps :
  eigen_system A ps ->
  [/\ size ps = d,
      (components d ps)^T *m components d ps = 1%:M,
      components d ps *m (components d ps)^T = 1%:M
    & A *m components d ps = components d ps *m diag_mx (spectrum d ps)].
Proof.
case/and3P=> /eqP sz on_ps eig_ps.
have WtW := components_orthonormal on_ps (eq_leq (esym sz)).
split=> //; first exact: mulmx1C.
by apply: components_eigen; rewrite ?sz.
Qed.

Lemma eigen_system_roundtrip (A : 'M[R]_d) ps :
  eigen_system A ps ->
  A = components d ps *m diag_mx (spectrum d ps) *m (components d ps)^T.
Proof.
by case/eigen_systemP=> _ _ WWt <-; rewrite -mulmxA WWt mulmx1.
Qed.

Lemma sum_eigenvalues_trace (A : 'M[R]_d) ps :
  eigen_system A ps -> \sum_(l <- eigenvalues ps) l = \tr A.
Proof.
move=> sys; have [sz WtW _ _] := eigen_systemP sys.
rewrite [in RHS](eigen_system_roundtrip sys) mxtrace_mulC mulmxA WtW mul1mx.
rewrite mxtrace_diag big_map (big_nth (0, 0)) sz big_mkord.
by apply: eq_bigr => j _; rewrite mxE.
Qed.

End EigenPairsTheory.

(** ** Covariance of projected data *)

Section PipelineTheory.

Variables (R : rcfType) (n d : nat).
Implicit Types (X : 'M[R]_(n, d)) (ps : seq (eigenpair R d)).

Lemma covariance_psd X (v : 'cV[R]_d) : 0 <= (v^T *m covariance X *m v) 0 0.
Proof.
rewrite covarianceE -scalemxAr -scalemxAl mxE mulr_ge0 ?invr_ge0 ?ler0n //.
rewrite mulmxA -mulmxA -trmx_mul -dotE.
by apply: sumr_ge0 => i _; rewrite -expr2 sqr_ge0.
Qed.

Lemma mu_project X k (W : 'M[R]_(d, k)) (b : 'I_k) :
  mu (project X W) b = \sum_a mu X a * W a b.
Proof.
rewrite /mu /project (eq_bigr (fun i => \sum_a X i a * W a b)).
  by move=> i _; rewrite mxE.
rewrite exchange_big /= mulr_suml; apply: eq_bigr => a _.
by rewrite -mulr_suml mulrAC.
Qed.

Lemma covariance_project X k (W : 'M[R]_(d, k)) :
  covariance (project X W) = W^T *m covariance X *m W.
Proof.
rewrite !covarianceE /project trmx_mul -scalemxAr -scalemxAl.
by rewrite !mulmxA.
Qed.

Lemma eigenvalue_ge0 X ps (p : eigenpair R d) :
  eigen_system (covariance X) ps -> p \in ps -> 0 <= p.1.
Proof.
case/and3P=> _ /andP[/allP unit_ps _] /allP eig_ps p_in.
have /eqP eig_p := eig_ps _ p_in; have /eqP unit_p := unit_ps _ p_in.
have := covariance_psd X p.2.
by rewrite -mulmxA eig_p -scalemxAr mxE -dotE unit_p mulr1.
Qed.

End PipelineTheory.

(** ** Variance along a direction

    The eigenvalue of a component is the variance of the data along it,
    and the first component of a sorted decomposition carries the most
    variance of all directions. *)

Section Directions.

Variables (R : rcfType) (n d : nat).
Implicit Types (X : 'M[R]_(n, d)) (w : 'cV[R]_d) (ps : seq (eigenpair R d)).

(** The variance of the centered data along the direction w. *)
Lemma variance_along X w :
  variance (project (center X) w) 0
  = (w^T *m covariance (center X) *m w) 0 0.
Proof.
rewrite -covariance_project covariance_diag_centered // mu_project.
by rewrite big1 // => a _; rewrite mu_center mul0r.
Qed.

Lemma quadratic_form_diag (l : 'rV[R]_d) (c : 'cV[R]_d) :
  (c^T *m diag_mx l *m c) 0 0 = \sum_j l 0 j * c j 0 ^+ 2.
Proof.
rewrite mul_mx_diag mxE; apply: eq_bigr => j _.
by rewrite !mxE expr2; ring.
Qed.

(** The eigenvalue is the variance of the data along its eigenvector. *)
Lemma variance_along_eigenvector X (p : eigenpair R d) :
  is_eigenpair (covariance (center X)) p -> unit_length p ->
  variance (project (center X) p.2) 0 = p.1.
Proof.
move=> /eqP eig_p /eqP unit_p.
by rewrite variance_along -mulmxA eig_p -scalemxAr mxE -dotE unit_p mulr1.
Qed.

(** No direction carries more variance than the first component. *)
Lemma first_component_max_variance X ps w :
  eigen_system (covariance (center X)) ps ->
  sorted (fun p q : eigenpair R d => q.1 <= p.1) ps ->
  dot w w = 1 ->
  variance (project (center X) w) 0 <= (nth (0, 0) ps 0).1.
Proof.
move=> sys sorted_ps w1; have [sz VtV VVt _] := eigen_systemP sys.
set V := components d ps in VtV VVt; set l := spectrum d ps.
rewrite variance_along [covariance _](eigen_system_roundtrip sys) -/V -/l.
pose c := V^T *m w.
have -> : w^T *m (V *m diag_mx l *m V^T) *m w = c^T *m diag_mx l *m c.
  by rewrite /c trmx_mul trmxK !mulmxA.
have c1 : \sum_j c j 0 ^+ 2 = 1.
  have -> : \sum_j c j 0 ^+ 2 = dot c c.
    by apply: eq_bigr => j _; rewrite expr2.
  rewrite dotE /c trmx_mul trmxK mulmxA -[_ *m V *m _]mulmxA VVt mulmx1.
  by rewrite -dotE.
rewrite quadratic_form_diag -[leRHS]mulr1 -c1 mulr_sumr.
apply: ler_sum => j _; rewrite ler_wpM2r ?sqr_ge0 // mxE.
have le_trans' : transitive (fun p q : eigenpair R d => q.1 <= p.1).
  by move=> q p r le_qp le_rq; apply: le_trans le_rq le_qp.
have [->|j_gt0] := posnP j; first by [].
have := sorted_ps; rewrite (sorted_pairwise le_trans').
move/(pairwiseP (0, 0))/(_ 0%N j); rewrite !inE sz; apply=> //.
exact: leq_ltn_trans (ltn_ord j).
Qed.

End Directions.

(** ** The order of the eigenpairs *)

Section OrderingTheory.

Variables (R : rcfType) (d : nat).
Implicit Types (ps : seq (eigenpair R d)) (a b c : nat * eigenpair R d).

Local Notation eigen_order := (@eigen_order R d).

Lemma eigen_order_total : total eigen_order.
Proof.
move=> a b; rewrite /eigen_order [b.2.1 == _]eq_sym.
by case: (ltgtP a.2.1 b.2.1) => //= _; apply: leq_total.
Qed.

Lemma eigen_order_trans : transitive eigen_order.
Proof.
move=> b a c /orP[lt_ba|/andP[/eqP eq_ab le_ab]] /orP[lt_cb|/andP[/eqP eq_bc le_bc]].
- by rewrite /eigen_order (lt_trans lt_cb lt_ba).
- by rewrite /eigen_order -eq_bc lt_ba.
- by rewrite /eigen_order eq_ab lt_cb.
- by rewrite /eigen_order eq_ab eq_bc eqxx (leq_trans le_ab le_bc) orbT.
Qed.

Lemma eigen_order_desc a b : eigen_order a b -> b.2.1 <= a.2.1.
Proof. by case/orP=> [/ltW//|/andP[/eqP-> _]]. Qed.

Lemma size_indexed ps : size (indexed ps) = size ps.
Proof. by rewrite size_zip size_iota minnn. Qed.

Lemma unzip1_indexed ps : unzip1 (indexed ps) = iota 0 (size ps).
Proof. by rewrite unzip1_zip // size_iota. Qed.

Lemma unzip2_indexed ps : unzip2 (indexed ps) = ps.
Proof. by rewrite unzip2_zip // size_iota. Qed.

Lemma indexed_uniq ps : uniq (unzip1 (indexed ps)).
Proof. by rewrite unzip1_indexed iota_uniq. Qed.

Lemma eigen_order_anti ps : {in indexed ps &, antisymmetric eigen_order}.
Proof.
move=> a b a_in b_in /andP[ab ba].
have eq1 : a.1 = b.1.
  case/orP: ab ba => [lt_ba|/andP[/eqP eq_ab le_ab]].
    by rewrite /eigen_order ltNge (ltW lt_ba) eq_sym (gt_eqF lt_ba).
  by rewrite /eigen_order eq_ab ltxx eqxx /= => le_ba; apply/eqP; rewrite eqn_leq le_ab.
exact: (uniq_map_inj_in (indexed_uniq ps)).
Qed.

Lemma perm_sort_indexed ps : perm_eq (sort_indexed ps) (indexed ps).
Proof. by rewrite /sort_indexed perm_sort. Qed.

Lemma sort_indexed_sorted ps : sorted eigen_order (sort_indexed ps).
Proof. exact/sort_sorted/eigen_order_total. Qed.

Lemma perm_sort_eigenpairs ps : perm_eq (sort_eigenpairs ps) ps.
Proof.
by rewrite -[X in perm_eq _ X]unzip2_indexed perm_map // perm_sort_indexed.
Qed.

Lemma sort_eigenpairs_desc ps :
  sorted (fun p q : eigenpair R d => q.1 <= p.1) (sort_eigenpairs ps).
Proof.
rewrite /sort_eigenpairs /unzip2 sorted_map.
apply: sub_sorted (sort_indexed_sorted ps) => a b /=.
exact: eigen_order_desc.
Qed.

Lemma sort_indexed_ties ps (i j : nat) :
  (i < j < size ps)%N ->
  let a := nth (0%N, (0, 0)) (sort_indexed ps) i in
  let b := nth (0%N, (0, 0)) (sort_indexed ps) j in
  a.2.1 = b.2.1 -> (a.1 < b.1)%N.
Proof.
case/andP=> lt_ij lt_j a b eq_ab.
have sz : size (sort_indexed ps) = size ps.
  by rewrite (perm_size (perm_sort_indexed ps)) size_indexed.
have lt_i : (i < size (sort_indexed ps))%N by rewrite sz (ltn_trans lt_ij).
rewrite -sz in lt_j.
have := sort_indexed_sorted ps; rewrite (sorted_pairwise eigen_order_trans).
move/(pairwiseP (0%N, (0, 0)))/(_ i j lt_i lt_j lt_ij).
rewrite -/a -/b /eigen_order eq_ab ltxx eqxx /= leq_eqVlt => /orP[]// /eqP eq1.
have uniq1 : uniq (unzip1 (sort_indexed ps)).
  by rewrite (perm_uniq (perm_map fst (perm_sort_indexed ps))) indexed_uniq.
have := nth_uniq 0%N _ _ uniq1; rewrite size_map => /(_ i j lt_i lt_j).
by rewrite !(nth_map (0%N, (0, 0))) // -/a -/b eq1 eqxx (ltn_eqF lt_ij).
Qed.

Lemma sort_indexed_unique ps (t : seq (nat * eigenpair R d)) :
  perm_eq t (indexed ps) -> sorted eigen_order t -> t = sort_indexed ps.
Proof.
move=> perm_t sorted_t.
apply: (@sorted_eq_in _ eigen_order t (sort_indexed ps)) => //.
- by move=> b a c _ _ _; apply: eigen_order_trans.
- move=> a b; rewrite !(perm_mem perm_t) => a_in b_in.
  exact: (eigen_order_anti a_in b_in).
- exact: sort_indexed_sorted.
- by apply: (perm_trans perm_t); rewrite perm_sym perm_sort_indexed.
Qed.

Lemma sort_eigenpairs_spec ps :
  [/\ perm_eq (sort_eigenpairs ps) ps,
      sorted (fun p q : eigenpair R d => q.1 <= p.1) (sort_eigenpairs ps),
      forall i j : nat, (i < j < size ps)%N ->
        let a := nth (0%N, (0, 0)) (sort_indexed ps) i in
        let b := nth (0%N, (0, 0)) (sort_indexed ps) j in
        b.2.1 <= a.2.1 /\ (a.2.1 = b.2.1 -> (a.1 < b.1)%N)
    & forall t, perm_eq t (indexed ps) -> sorted eigen_order t ->
        unzip2 t = sort_eigenpairs ps].
Proof.
split.
- exact: perm_sort_eigenpairs.
- exact: sort_eigenpairs_desc.
- move=> i j lt_ij a b; split; last exact: sort_indexed_ties.
  case/andP: lt_ij => lt_ij lt_j.
  have sz : size (sort_indexed ps) = size ps.
    by rewrite (perm_size (perm_sort_indexed ps)) size_indexed.
  have := sort_indexed_sorted ps.
  rewrite (sorted_pairwise eigen_order_trans).
  move/(pairwiseP (0%N, (0, 0)))/(_ i j); rewrite !inE sz => /(_ _ lt_j lt_ij).
  by move/(_ (ltn_trans lt_ij lt_j)); apply: eigen_order_desc.
- by move=> t perm_t sorted_t; rewrite (sort_indexed_unique perm_t sorted_t).
Qed.

End OrderingTheory.

(** ** Explained variance *)

Section ExplainedVarianceTheory.

Variable R : rcfType.
Implicit Types lams s : seq R.

Lemma size_explained_variance_ratio lams :
  size (explained_variance_ratio lams) = size lams.
Proof. by rewrite size_map. Qed.

Lemma sum_explained_variance_ratio lams :
  total_variance lams != 0 -> \sum_(x <- explained_variance_ratio lams) x = 1.
Proof. by move=> tot; rewrite big_map -mulr_suml divff. Qed.

Lemma total_variance_ge0 lams : all (>= 0) lams -> 0 <= total_variance lams.
Proof.
move=> /allP pos; rewrite /total_variance big_seq.
by apply: sumr_ge0 => l /pos.
Qed.

Lemma explained_variance_ratio_ge0 lams :
  all (>= 0) lams -> all (>= 0) (explained_variance_ratio lams).
Proof.
move=> pos; rewrite all_map; apply/allP => l l_in /=.
by rewrite divr_ge0 ?total_variance_ge0 // (allP pos).
Qed.

Lemma scanl_add_sorted (x : R) s :
  all (>= 0) s -> path <=%R x (scanl +%R x s).
Proof.
elim: s x => [//|y s IHs] x /= /andP[y_ge0 s_ge0].
by rewrite lerDl y_ge0 IHs.
Qed.

Lemma cumsum_sorted s : all (>= 0) s -> sorted <=%R (cumsum s).
Proof. by move=> /(scanl_add_sorted 0)/path_sorted. Qed.

End ExplainedVarianceTheory.

(** ** Constant features *)

Section DegenerateFeaturesTheory.

Variables (R : rcfType) (n d : nat).
Implicit Types (X : 'M[R]_(n, d)) (j : 'I_d).

Lemma constant_feature_mu X j i : constant_feature X j -> X i j = mu X j.
Proof.
move=> cst; rewrite /mu (eq_bigr (fun=> X i j)) => [k _|]; first exact: cst.
rewrite sumr_const card_ord -mulr_natr mulfK // pnatr_eq0.
by case: n i => [[]|].
Qed.




End DegenerateFeaturesTheory.

(** ** Reflections *)

Section Householder.

Variables (R : rcfType) (n : nat).
Implicit Types (u v w e : 'cV[R]_n).

Lemma dot_mulmx u v : u^T *m v = (dot u v)%:M.
Proof. by rewrite [LHS]mx11_scalar -dotE. Qed.

Lemma dot_ge0 u : 0 <= dot u u.
Proof. by apply: sumr_ge0 => i _; rewrite -expr2 sqr_ge0. Qed.

Lemma dot_eq0 u : (dot u u == 0) = (u == 0).
Proof.
apply/eqP/eqP => [|->]; last by rewrite /dot big1 // => i _; rewrite mxE mul0r.
move/eqP; rewrite psumr_eq0 => [i _|/allP u0]; first by rewrite -expr2 sqr_ge0.
apply/matrixP => i j; rewrite ord1 mxE; apply/eqP.
by have := u0 i (mem_index_enum i); rewrite -expr2 sqrf_eq0.
Qed.

Lemma dotBB u e :
  dot (u - e) (u - e) = dot u u - 2 * dot u e + dot e e.
Proof.
rewrite mulr_sumr /dot -sumrB -big_split; apply: eq_bigr => i _ /=.
by rewrite !mxE; ring.
Qed.

Lemma dotBl u e v : dot (u - e) v = dot u v - dot e v.
Proof.
by rewrite /dot -sumrB; apply: eq_bigr => i _; rewrite !mxE mulrBl.
Qed.

Lemma dotZZ (c : R) v : dot (c *: v) (c *: v) = c ^+ 2 * dot v v.
Proof.
rewrite /dot mulr_sumr; apply: eq_bigr => i _.
by rewrite !mxE; ring.
Qed.

(** The reflection across the hyperplane orthogonal to w: a symmetric
    orthogonal matrix, used to extend a unit vector to an orthonormal
    basis. *)
Definition householder w : 'M[R]_n := 1%:M - (2 / dot w w) *: (w *m w^T).

Lemma householder_sym w : (householder w)^T = householder w.
Proof.
by rewrite /householder linearB /= linearZ /= trmx1 trmx_mul trmxK.
Qed.

Lemma householder_invol w : householder w *m householder w = 1%:M.
Proof.
have [w0|w_neq0] := eqVneq (dot w w) 0.
  by rewrite /householder w0 invr0 mulr0 scale0r subr0 mulmx1.
set M := w *m w^T; set t := 2 / dot w w.
have MM : M *m M = dot w w *: M.
  by rewrite /M mulmxA -[w *m _ *m w]mulmxA dot_mulmx mul_mx_scalar -scalemxAl.
have tt : t * t * dot w w = t + t.
  by rewrite -mulrA /t divfK // mulr_natr mulr2n.
rewrite /householder -/M -/t mulmxBl !mulmxBr !mul1mx mulmx1.
rewrite -scalemxAl -scalemxAr MM !scalerA tt scalerDl.
by rewrite opprB [_ + _ - _]addrK subrK.
Qed.

Lemma householder_orth w : (householder w)^T *m householder w = 1%:M.
Proof. by rewrite householder_sym householder_invol. Qed.

Lemma householder_reflect u e :
  dot u u = 1 -> dot e e = 1 -> householder (u - e) *m e = u.
Proof.
move=> u1 e1; set w := u - e.
have dot_ww : dot w w = 2 * (1 - dot u e).
  by rewrite dotBB u1 e1; ring.
have dot_we : dot w e = - (1 - dot u e) by rewrite dotBl e1 opprB.
have [w0|w_neq0] := eqVneq (dot w w) 0.
  rewrite /householder w0 invr0 mulr0 scale0r subr0 mul1mx.
  by move/eqP: w0; rewrite dot_eq0 subr_eq0 => /eqP.
rewrite /householder mulmxBl mul1mx -scalemxAl -mulmxA dot_mulmx.
rewrite mul_mx_scalar scalerA dot_we.
have -> : 2 / dot w w * - (1 - dot u e) = -1.
  have nz : 1 - dot u e != 0.
    by move: w_neq0; rewrite dot_ww mulf_eq0 negb_or => /andP[].
  by rewrite dot_ww; field.
by rewrite scaleN1r opprK /w addrC subrK.
Qed.

End Householder.

(** ** Eigenvectors of an arrowhead matrix

    A symmetric matrix whose trailing block is diagonal has an eigenvector
    that can be written down: if a border entry is zero or two diagonal
    entries agree it is a combination of basis vectors, and otherwise it
    comes from a root of the characteristic polynomial, which changes sign
    between the largest diagonal entry and a large enough bound. *)

Section Secular.

Variables (R : rcfType) (n : nat) (alpha : R) (beta delta : 'I_n -> R).

(** The characteristic polynomial of the arrowhead matrix with corner
    alpha, border beta and diagonal delta. *)
Definition secular_poly : {poly R} :=
  ('X - alpha%:P) * \prod_i ('X - (delta i)%:P)
  - \sum_i (beta i ^+ 2)%:P * \prod_(j | j != i) ('X - (delta j)%:P).

Lemma secular_polyE x :
  secular_poly.[x] =
  (x - alpha) * \prod_i (x - delta i)
  - \sum_i beta i ^+ 2 * \prod_(j | j != i) (x - delta j).
Proof.
rewrite /secular_poly hornerD hornerN hornerM horner_prod horner_sum.
rewrite hornerXsubC; congr (_ * _ - _).
  by apply: eq_bigr => i _; rewrite hornerXsubC.
apply: eq_bigr => i _; rewrite hornerM hornerC horner_prod; congr (_ * _).
by apply: eq_bigr => j _; rewrite hornerXsubC.
Qed.

Lemma prod_split x i :
  \prod_j (x - delta j) = (x - delta i) * \prod_(j | j != i) (x - delta j).
Proof. by rewrite (bigD1 i). Qed.

Lemma secular_at_delta i :
  secular_poly.[delta i]
  = - (beta i ^+ 2 * \prod_(j | j != i) (delta i - delta j)).
Proof.
rewrite secular_polyE (prod_split _ i) subrr mul0r mulr0 sub0r; congr (- _).
rewrite (bigD1 i) //= [X in _ + X]big1 ?addr0 // => k k_neq_i.
by rewrite (bigD1 i) 1?eq_sym //= subrr mul0r mulr0.
Qed.

(** (x0, y) is a non-zero eigenvector of that arrowhead matrix for the
    eigenvalue mu. *)
Definition secular_solves (mu x0 : R) (y : 'I_n -> R) : Prop :=
  [/\ (x0 != 0) || [exists i, y i != 0],
      alpha * x0 + \sum_i beta i * y i = mu * x0
    & forall i, beta i * x0 + delta i * y i = mu * y i].

Lemma secular_zero_beta i :
  beta i = 0 -> secular_solves (delta i) 0 (fun j => (j == i)%:R).
Proof.
move=> beta0; split=> [||j].
- by apply/orP; right; apply/existsP; exists i; rewrite eqxx oner_eq0.
- rewrite !mulr0 add0r (bigD1 i) //= eqxx beta0 mul0r add0r big1 // => j.
  by move/negPf->; rewrite mulr0.
- by rewrite mulr0 add0r; case: eqP => [->|_]; rewrite ?mulr0.
Qed.

Lemma secular_tie i j :
  i != j -> delta i = delta j -> beta j != 0 ->
  secular_solves (delta i) 0
    (fun k => beta j * (k == i)%:R - beta i * (k == j)%:R).
Proof.
move=> neq_ij eq_delta beta_j; have neq_ji : j != i by rewrite eq_sym.
split=> [||k].
- apply/orP; right; apply/existsP; exists i.
  by rewrite eqxx (negPf neq_ij) mulr1 mulr0 subr0.
- rewrite !mulr0 add0r (bigD1 i) //= (bigD1 j) //= big1 => [k|].
    by case/andP=> /negPf-> /negPf->; rewrite !mulr0 subr0 mulr0.
  by rewrite !eqxx (negPf neq_ij) (negPf neq_ji) /= !mulr1 !mulr0; ring.
- rewrite mulr0 add0r; have [->|neq_ki] := eqVneq k i; first by [].
  have [->|neq_kj] := eqVneq k j; first by rewrite eq_delta.
  by rewrite !mulr0 subrr !mulr0.
Qed.

Lemma secular_root mu :
  root secular_poly mu -> (forall i, mu != delta i) ->
  secular_solves mu 1 (fun i => beta i / (mu - delta i)).
Proof.
move=> /rootP; rewrite secular_polyE => /eqP; rewrite subr_eq0 => /eqP q0 neq.
have dnz i : mu - delta i != 0 by rewrite subr_eq0.
have Pnz : \prod_i (mu - delta i) != 0 by apply/prodf_neq0 => i _.
have sum_y : \sum_i beta i * (beta i / (mu - delta i)) = mu - alpha.
  apply: (mulIf Pnz); rewrite q0 mulr_suml; apply: eq_bigr => i _.
  by rewrite (prod_split _ i) expr2; field.
split=> [||i]; first by rewrite oner_eq0.
- by rewrite sum_y; ring.
- by rewrite mulr1; field.
Qed.

Lemma secular_sign_change :
  exists x1 x2, x1 <= x2 /\ secular_poly.[x1] <= 0 <= secular_poly.[x2].
Proof.
have [i0 _|no_i] := pickP (@predT 'I_n); last first.
  exists alpha, alpha; split=> //.
  rewrite secular_polyE subrr mul0r big1 ?subr0 ?lexx // => i.
  by have := no_i i.
pose im := [arg max_(i > i0) delta i]%O.
have le_dm i : delta i <= delta im by rewrite /im; case: arg_maxP => // j _; apply.
pose S := \sum_i beta i ^+ 2.
have S_ge0 : 0 <= S by apply: sumr_ge0 => i _; rewrite sqr_ge0.
pose m := Num.max (delta im) alpha.
have le_m1 : delta im <= m by rewrite le_max lexx.
have le_m2 : alpha <= m by rewrite le_max lexx orbT.
pose x2 := m + S + 1.
have le_x2 : delta im <= x2 by rewrite /x2; lra.
exists (delta im), x2; split=> //; apply/andP; split.
  rewrite secular_at_delta oppr_le0 mulr_ge0 ?sqr_ge0 //.
  by apply: prodr_ge0 => j _; rewrite subr_ge0.
have ge1 i : 1 <= x2 - delta i by have := le_dm i; rewrite /x2; lra.
have Pi_ge0 i : 0 <= \prod_(j | j != i) (x2 - delta j).
  by apply: prodr_ge0 => j _; rewrite (le_trans ler01).
set P := \prod_i (x2 - delta i).
have P_ge0 : 0 <= P by apply: prodr_ge0 => j _; rewrite (le_trans ler01).
have le_P i : \prod_(j | j != i) (x2 - delta j) <= P.
  by rewrite /P (prod_split _ i) ler_peMl.
rewrite secular_polyE -/P subr_ge0.
apply: (@le_trans _ _ (S * P)).
  by rewrite /S mulr_suml; apply: ler_sum => i _; rewrite ler_wpM2l ?sqr_ge0.
by rewrite ler_wpM2r // /x2; lra.
Qed.

Lemma secular_exists : exists mu x0 y, secular_solves mu x0 y.
Proof.
have [i /eqP beta0|beta_neq0] := pickP (fun i => beta i == 0).
  by exists (delta i), 0, (fun j => (j == i)%:R); apply: secular_zero_beta.
have [[i j] /= /andP[neq_ij /eqP eq_delta]|inj_delta] :=
    pickP (fun ij : 'I_n * 'I_n => (ij.1 != ij.2) && (delta ij.1 == delta ij.2)).
  exists (delta i), 0, (fun k => beta j * (k == i)%:R - beta i * (k == j)%:R).
  by apply: secular_tie => //; rewrite beta_neq0.
have [x1 [x2 [le_x sign]]] := secular_sign_change.
have [mu _ root_mu] := poly_ivt le_x sign.
exists mu, 1, (fun i => beta i / (mu - delta i)); apply: secular_root => // i.
apply: contraTneq root_mu => ->; rewrite /root secular_at_delta oppr_eq0.
rewrite mulf_neq0 ?expf_neq0 ?beta_neq0 //; apply/prodf_neq0 => j neq_ji.
rewrite subr_eq0; have := inj_delta (i, j) => /=.
by rewrite eq_sym neq_ji /= => ->.
Qed.

End Secular.

(** ** The spectral theorem for symmetric matrices *)

Section Spectral.

Variable R : rcfType.

(** V has orthonormal columns, and its j-th column is an eigenvector of A
    for the eigenvalue l_j. *)
Definition diagonalizes n (A V : 'M[R]_n) (l : 'rV[R]_n) : Prop :=
  V^T *m V = 1%:M /\ A *m V = V *m diag_mx l.

(** The first vector of the standard basis of R^(1+n). *)
Definition e0 n : 'cV[R]_(1 + n) := col_mx 1%:M 0.

Lemma dot_e0 n : dot (e0 n) (e0 n) = 1.
Proof.
rewrite dotE tr_col_mx mul_row_col trmx1 trmx0 mul1mx mul0mx addr0.
by rewrite mxE eqxx.
Qed.

Lemma deflate n (A : 'M[R]_(1 + n)) (lam : R) (u : 'cV[R]_(1 + n)) :
  A^T = A -> dot u u = 1 -> A *m u = lam *: u ->
  exists2 B : 'M[R]_n,
    B^T = B & householder (u - e0 n) *m A *m householder (u - e0 n)
              = block_mx lam%:M 0 0 B.
Proof.
move=> symA u1 eigu; set H := householder _; set C := H *m A *m H.
have He0 : H *m e0 n = u by apply: householder_reflect => //; apply: dot_e0.
have Hu : H *m u = e0 n by rewrite -He0 mulmxA householder_invol mul1mx.
have symC : C^T = C by rewrite /C !trmx_mul householder_sym symA mulmxA.
have Ce0 : C *m e0 n = lam *: e0 n.
  by rewrite /C -!mulmxA He0 eigu -scalemxAr Hu.
have /eq_block_mx[_ dl_ur _ symB] :
    block_mx (ulsubmx C)^T (dlsubmx C)^T (ursubmx C)^T (drsubmx C)^T
    = block_mx (ulsubmx C) (ursubmx C) (dlsubmx C) (drsubmx C).
  by rewrite -tr_block_mx submxK.
have /eq_col_mx[ul dl] : col_mx (ulsubmx C) (dlsubmx C) = col_mx lam%:M 0.
  move: Ce0; rewrite -{1}(submxK C) /e0 mul_block_col scale_col_mx.
  by rewrite !mulmx1 !mulmx0 !addr0 scaler0 scalemx1.
exists (drsubmx C) => //.
by rewrite -[LHS](submxK C) ul -dl_ur dl trmx0.
Qed.

Lemma diag_mx11 (c : R) : diag_mx (c%:M : 'rV[R]_1) = c%:M.
Proof. by apply/matrixP => i j; rewrite !ord1 !mxE eqxx !mulr1n. Qed.

Lemma spectral_step n :
  (forall A : 'M[R]_n, A^T = A -> exists V l, diagonalizes A V l) ->
  forall (A : 'M[R]_(1 + n)) lam u,
    A^T = A -> dot u u = 1 -> A *m u = lam *: u ->
    exists V l, diagonalizes A V l.
Proof.
move=> IHn A lam u symA u1 eigu.
have [B symB defB] := deflate symA u1 eigu.
have [V' [l' [V'tV' BV']]] := IHn B symB.
set H := householder _ in defB.
have AH : A *m H = H *m block_mx lam%:M 0 0 B.
  by rewrite -defB !mulmxA householder_invol mul1mx.
exists (H *m block_mx 1%:M 0 0 V'), (row_mx lam%:M l'); split.
  rewrite trmx_mul mulmxA -[_ *m H^T *m H]mulmxA householder_orth mulmx1.
  rewrite tr_block_mx mulmx_block !trmx0 !trmx1 !mulmx0 !mul0mx !mul1mx.
  by rewrite !addr0 !add0r V'tV' -scalar_mx_block.
rewrite mulmxA AH -!mulmxA; congr (H *m _).
rewrite diag_mx_row diag_mx11 !mulmx_block.
rewrite !mulmx0 !mul0mx !mul1mx !mulmx1 !addr0 !add0r BV'.
by [].
Qed.

Lemma normalize_eigenvector n (A : 'M[R]_n) mu (v : 'cV[R]_n) :
  v != 0 -> A *m v = mu *: v ->
  exists lam u, dot u u = 1 /\ A *m u = lam *: u.
Proof.
move=> v_neq0 eigv; pose s := Num.sqrt (dot v v).
have s_neq0 : s != 0 by rewrite sqrtr_eq0 -ltNge lt_def dot_eq0 v_neq0 dot_ge0.
exists mu, (s^-1 *: v); split.
  by rewrite dotZZ exprVn sqr_sqrtr ?dot_ge0 // mulVf // dot_eq0.
by rewrite -scalemxAr eigv scalerA mulrC -scalerA.
Qed.

Lemma sym_eigenvector n :
  (forall A : 'M[R]_n, A^T = A -> exists V l, diagonalizes A V l) ->
  forall A : 'M[R]_(1 + n), A^T = A ->
    exists lam u, dot u u = 1 /\ A *m u = lam *: u.
Proof.
move=> IHn A symA.
have /eq_block_mx[_ dl_ur _ symA'] :
    block_mx (ulsubmx A)^T (dlsubmx A)^T (ursubmx A)^T (drsubmx A)^T
    = block_mx (ulsubmx A) (ursubmx A) (dlsubmx A) (drsubmx A).
  by rewrite -tr_block_mx submxK.
have [Q [d [QtQ A'Q]]] := IHn _ symA'.
have QQt : Q *m Q^T = 1%:M := mulmx1C QtQ.
have [g defc] : exists g, dlsubmx A = Q *m g.
  by exists (Q^T *m dlsubmx A); rewrite mulmxA QQt mul1mx.
have [mu [x0 [y [nz eq1 eq2]]]] :=
  secular_exists ((ulsubmx A) 0 0) (fun i => g i 0) (fun i => d 0 i).
pose yv : 'cV[R]_n := \col_i y i.
have eq_y : g *m x0%:M + diag_mx d *m yv = mu *: yv.
  apply/matrixP => i j; rewrite ord1 mul_mx_scalar mul_diag_mx !mxE.
  by rewrite mulrC eq2.
apply: (@normalize_eigenvector _ A mu (col_mx x0%:M (Q *m yv))).
  case/orP: nz => [x0_neq0|/existsP[i yi_neq0]].
    apply: contra_neq x0_neq0 => /(congr1 usubmx); rewrite col_mxKu.
    by move/matrixP/(_ 0 0); rewrite !mxE eqxx mulr1n.
  apply: contra_neq yi_neq0 => /(congr1 dsubmx); rewrite col_mxKd linear0.
  move/(congr1 (mulmx Q^T)); rewrite mulmxA QtQ mul1mx mulmx0.
  by move/matrixP/(_ i 0); rewrite !mxE.
rewrite -[in LHS](submxK A) mul_block_col scale_col_mx; congr col_mx.
  apply/matrixP => i j; rewrite !ord1 -dl_ur defc trmx_mul mulmxA.
  rewrite -[_ *m Q]mulmxA QtQ mulmx1 mul_mx_scalar !mxE -eq1 mulrC.
  congr (_ + _); first by rewrite !mxE.
  by apply: eq_bigr => k _; rewrite !mxE.
rewrite mulmxA A'Q {1}defc -!mulmxA -mulmxDr eq_y.
by rewrite -scalemxAr.
Qed.

(** The spectral theorem: every symmetric matrix over a real closed field
    has an orthonormal basis of eigenvectors. *)
Theorem spectral_mx n (A : 'M[R]_n) :
  A^T = A -> exists V l, diagonalizes A V l.
Proof.
elim: n A => [|n IHn] A symA.
  by exists 1%:M, 0; split; apply/matrixP => - [].
have [lam [u [u1 eigu]]] := sym_eigenvector IHn symA.
exact: (@spectral_step n IHn A lam u symA u1 eigu).
Qed.

End Spectral.

(** ** The Eigendecomposition Engine *)

Section Engine.

Variables (R : rcfType) (d : nat).
Implicit Types (A V : 'M[R]_d) (l : 'rV[R]_d) (ps qs : seq (eigenpair R d)).

(** The eigenpairs read off the columns of V and the entries of l. *)
Definition pairs_of V l : seq (eigenpair R d) :=
  [seq (l 0 j, col j V) | j <- enum 'I_d].

Lemma dot_col V (i j : 'I_d) : dot (col i V) (col j V) = (V^T *m V) i j.
Proof. by rewrite mxE; apply: eq_bigr => k _; rewrite !mxE. Qed.

Lemma diagonalizes_eigen_system A V l :
  diagonalizes A V l -> eigen_system A (pairs_of V l).
Proof.
case=> VtV AV; apply/and3P; split.
- by rewrite size_map size_enum_ord.
- apply/andP; split.
    apply/allP => p /mapP[j _ ->]; rewrite /unit_length /=.
    by rewrite dot_col VtV mxE eqxx.
  rewrite pairwise_map; have := enum_uniq 'I_d.
  rewrite uniq_pairwise; apply: sub_pairwise => i j /= neq_ij.
  by rewrite /orthogonal /= dot_col VtV mxE (negPf neq_ij).
- apply/allP => p /mapP[j _ ->]; rewrite /is_eigenpair /=; apply/eqP.
  apply/matrixP => i k; rewrite !mxE.
  have /matrixP/(_ i j) := AV; rewrite mul_mx_diag !mxE mulrC => <-.
  by apply: eq_bigr => m _; rewrite !mxE.
Qed.

Lemma eigen_system_exists A : A^T = A -> exists ps, eigen_system A ps.
Proof.
move=> /spectral_mx[V [l diagA]].
by exists (pairs_of V l); apply: diagonalizes_eigen_system.
Qed.

(** Modelled from the spec: the Eigendecomposition Engine.  The notebook
    states the eigen equation and that d pairs are obtained, and leaves
    the computation to the library; the specification accepts any correct
    symmetric eigensolver.  The solver is therefore an arbitrary choice
    among the full decompositions of its input, which exist for every
    symmetric matrix; on other inputs it returns no pair. *)
Definition eigen_solve A : seq (eigenpair R d) :=
  match @eqP _ (A^T) A with
  | ReflectT symA => xchoose (eigen_system_exists symA)
  | ReflectF _ => [::]
  end.

(** The engine: solve, then put the biggest variance first. *)
Definition eigendecomposition A : seq (eigenpair R d) :=
  sort_eigenpairs (eigen_solve A).

Lemma eigen_solveP A : A^T = A -> eigen_system A (eigen_solve A).
Proof.
by move=> symA; rewrite /eigen_solve; case: eqP => // symA'; apply: xchooseP.
Qed.

Lemma eigendecompositionP A :
  A^T = A -> eigen_system A (eigendecomposition A).
Proof.
move=> symA.
by rewrite (perm_eigen_system _ (perm_sort_eigenpairs _)) eigen_solveP.
Qed.

End Engine.

(** ** The concrete datasets *)

Section DatasetsTheory.

Variable R : rcfType.

Local Notation scenario := (scenario R).
Local Notation sample := (sample R).
Local Notation sample_pairs := (sample_pairs R).
Local Notation flat := (flat R).
Local Notation flat_pairs := (flat_pairs R).

Lemma ordS_cases n (P : 'I_n.+1 -> Prop) :
  P ord0 -> (forall i, P (lift ord0 i)) -> forall i, P i.
Proof. by move=> P0 PS i; case: (unliftP ord0 i) => [j|] ->. Qed.

Lemma scenario_mu j : mu scenario j = 0.
Proof.
rewrite /mu !big_ord_recl big_ord0 !mxE.
by elim/ordS_cases: j => [|j]; rewrite ?ord1 /=; field.
Qed.

Lemma scenario_center : center scenario = scenario.
Proof. by apply/matrixP => i j; rewrite mxE scenario_mu subr0. Qed.

Lemma scenario_covariance : covariance scenario = 2%:M.
Proof.
apply/matrixP => a b; rewrite !mxE !big_ord_recl big_ord0 !mxE.
elim/ordS_cases: a => [|a]; elim/ordS_cases: b => [|b]; rewrite ?ord1 /=.
all: by rewrite -?val_eqE /= ?mulr1n ?mulr0n; field.
Qed.

Lemma scalar_eigenvalue d (c : R) (p : eigenpair R d) :
  is_eigenpair c%:M p -> unit_length p -> p.1 = c.
Proof.
rewrite /is_eigenpair /unit_length mul_scalar_mx -subr_eq0 -scalerBl.
rewrite scaler_eq0 subr_eq0 => /orP[/eqP//|/eqP->].
rewrite /dot big1 => [i _|]; first by rewrite mxE mul0r.
by rewrite eq_sym oner_eq0.
Qed.

Lemma scalar_eigenvalues d (c : R) (ps : seq (eigenpair R d)) :
  eigen_system c%:M ps -> eigenvalues ps = nseq (size ps) c.
Proof.
case/and3P=> _ /andP[unit_ps _] eig_ps.
elim: ps unit_ps eig_ps => [//|p ps IHps] /= /andP[unit_p unit_ps].
case/andP=> eig_p eig_ps.
by rewrite (scalar_eigenvalue eig_p unit_p) IHps.
Qed.

Lemma scalar_eigen_system d (c : R) (ps : seq (eigenpair R d)) :
  size ps = d -> orthonormal ps -> all (fun p => p.1 == c) ps ->
  eigen_system c%:M ps.
Proof.
move=> sz on_ps all_c; rewrite /eigen_system sz eqxx on_ps /=.
apply: sub_all all_c => p /eqP eq_c.
by rewrite /is_eigenpair mul_scalar_mx eq_c.
Qed.

Lemma diag_const_mx d (c : R) : diag_mx (const_mx c) = c%:M :> 'M[R]_d.
Proof. by apply/matrixP => i j; rewrite !mxE. Qed.

Lemma scenario_eigenvalues (ps : seq (eigenpair R 2)) :
  eigen_system (covariance scenario) ps -> eigenvalues ps = [:: 2; 2].
Proof.
rewrite scenario_covariance => sys; rewrite (scalar_eigenvalues sys).
by case/and3P: sys => /eqP->.
Qed.

Lemma sample_mu j : mu sample j = 0.
Proof. by rewrite /mu !big_ord_recl big_ord0 !mxE ord1 /= addr0 subrr mul0r. Qed.

Lemma sample_center : center sample = sample.
Proof. by apply/matrixP => i j; rewrite mxE sample_mu subr0. Qed.

Lemma sample_sigma j : sigma sample j = 1.
Proof.
rewrite /sigma /variance sample_mu !big_ord_recl big_ord0 !mxE ord1 /=.
by rewrite !subr0 sqrrN expr1n addr0 -[1 + 1]/(2%:R) divff ?sqrtr1 ?pnatr_eq0.
Qed.

Lemma sample_sigma_neq0 j : sigma sample j != 0.
Proof. by rewrite sample_sigma oner_eq0. Qed.

Lemma sample_covariance : covariance sample = 1%:M.
Proof.
apply/matrixP => a b; rewrite !ord1 !mxE !big_ord_recl big_ord0 !mxE /=.
by rewrite mulrNN mulr1 addr0 -[1 + 1]/(2%:R) divff ?pnatr_eq0.
Qed.

Lemma singleton_orthonormal (c : R) :
  orthonormal [:: (c, const_mx 1 : 'cV[R]_1)].
Proof.
rewrite /orthonormal /= /unit_length /dot big_ord_recl big_ord0 !mxE.
by rewrite mulr1 addr0 eqxx.
Qed.

Lemma sample_eigen_system : eigen_system (covariance sample) sample_pairs.
Proof.
rewrite sample_covariance; apply: scalar_eigen_system => //=.
  exact: singleton_orthonormal.
by rewrite eqxx.
Qed.

Lemma flat_constant j : constant_feature flat j.
Proof.
move=> i i'; rewrite !mxE !ord1.
by elim/ordS_cases: i => [|i]; elim/ordS_cases: i' => [|i']; rewrite ?ord1.
Qed.

Lemma flat_center : center flat = 0.
Proof.
apply/matrixP => i j; rewrite [LHS]mxE [RHS]mxE.
by rewrite (constant_feature_mu i (@flat_constant j)) subrr.
Qed.

Lemma flat_eigen_system : eigen_system (covariance (center flat)) flat_pairs.
Proof.
have -> : covariance (center flat) = 0%:M.
  rewrite flat_center; apply/matrixP => a b; rewrite !mxE big1 ?mul0r ?mul0rn //.
  by move=> i _; rewrite mxE mul0r.
apply: scalar_eigen_system => //=; first exact: singleton_orthonormal.
by rewrite eqxx.
Qed.

End DatasetsTheory.

(** ** Changes of unit *)

Section UnitsTheory.

Variables (R : rcfType) (n d : nat).
Implicit Types (X : 'M[R]_(n, d)) (a b : 'rV[R]_d) (i : 'I_n) (j : 'I_d).

Lemma varianceE X j : variance X j = (\sum_i center X i j ^+ 2) / n%:R.
Proof. by congr (_ / _); apply: eq_bigr => i _; rewrite mxE. Qed.

Lemma zscoreE X i j : zscore X i j = center X i j / sigma X j.
Proof. by rewrite !mxE. Qed.

Lemma mu_rescale a b X j :
  (0 < n)%N -> mu (rescale a b X) j = a 0 j * mu X j + b 0 j.
Proof.
move=> n_gt0; rewrite /mu (eq_bigr (fun i => a 0 j * X i j + b 0 j)).
  by move=> i _; rewrite mxE.
rewrite big_split /= -mulr_sumr sumr_const card_ord mulrDl -mulrA.
by rewrite -[b 0 j *+ n]mulr_natr mulfK // pnatr_eq0 -lt0n.
Qed.

Lemma center_rescale a b X i j :
  center (rescale a b X) i j = a 0 j * center X i j.
Proof.
have n_gt0 : (0 < n)%N by case: n i => [[]|].
by rewrite !mxE mu_rescale //; ring.
Qed.

Lemma variance_rescale a b X j :
  variance (rescale a b X) j = a 0 j ^+ 2 * variance X j.
Proof.
rewrite !varianceE mulrA mulr_sumr; congr (_ / _).
by apply: eq_bigr => i _; rewrite center_rescale exprMn.
Qed.

Lemma sigma_rescale a b X j :
  sigma (rescale a b X) j = `|a 0 j| * sigma X j.
Proof.
by rewrite /sigma variance_rescale sqrtrM ?sqr_ge0 // sqrtr_sqr.
Qed.

Lemma center_center X : center (center X) = center X.
Proof. by apply/matrixP => i j; rewrite [LHS]mxE mu_center subr0. Qed.

Lemma center_zscore X : center (zscore X) = zscore X.
Proof. by apply/matrixP => i j; rewrite [LHS]mxE mu_zscore subr0. Qed.

End UnitsTheory.

(** ** The entries of the covariance matrix *)

Section CovarianceEntries.

Variables (R : rcfType) (n d : nat).
Implicit Types (X : 'M[R]_(n, d)) (S : 'M[R]_d) (a b : 'I_d).
Implicit Types (ps : seq (eigenpair R d)).

Local Notation basis a := (delta_mx a 0 : 'cV[R]_d).

Lemma covariance_center_diag X a : covariance (center X) a a = variance X a.
Proof.
by rewrite varianceE mxE; congr (_ / _); apply: eq_bigr => i _; rewrite expr2.
Qed.

Lemma quadratic_form_entry S a b :
  ((basis a)^T *m S *m basis b) 0 0 = S a b.
Proof. by rewrite trmx_delta -rowE -colE !mxE. Qed.

Lemma quadratic_form_pair S a b (x y : R) :
  let v := x *: basis a + y *: basis b in
  (v^T *m S *m v) 0 0
  = x ^+ 2 * S a a + x * y * (S a b + S b a) + y ^+ 2 * S b b.
Proof.
move=> v; have -> : v^T = x *: (basis a)^T + y *: (basis b)^T.
  by rewrite /v raddfD /= !linearZ.
rewrite /v !mulmxDl !mulmxDr -!scalemxAl -!scalemxAr !scalerA.
have formE a' b' : (basis a')^T *m S *m basis b' = (S a' b')%:M.
  by rewrite [LHS]mx11_scalar quadratic_form_entry.
by rewrite !formE !mxE eqxx !mulr1n; ring.
Qed.

Lemma covariance_diag_eq0 X a b :
  covariance X b b = 0 -> covariance X a b = 0.
Proof.
rewrite !mxE => /eqP; rewrite mulf_eq0 => /orP[|/eqP->]; last by rewrite mulr0.
rewrite psumr_eq0 => [i _|/allP col0]; first by rewrite -expr2 sqr_ge0.
rewrite big1 ?mul0r // => i _.
have := col0 i (mem_index_enum i); rewrite -expr2 sqrf_eq0 => /eqP->.
by rewrite mulr0.
Qed.

Lemma covariance_cauchy_schwarz X a b :
  covariance X a b ^+ 2 <= covariance X a a * covariance X b b.
Proof.
set s := covariance X b b; set t := covariance X a b.
have s_ge0 : 0 <= s.
  by rewrite /s mxE divr_ge0 ?ler0n // sumr_ge0 // => i _; rewrite -expr2 sqr_ge0.
have eq_ba : covariance X b a = t.
  by rewrite /t -{1}[covariance X]covariance_sym mxE.
have := covariance_psd X (s *: basis a + (- t) *: basis b).
rewrite quadratic_form_pair eq_ba -/s -/t.
have -> : s ^+ 2 * covariance X a a + s * - t * (t + t) + (- t) ^+ 2 * s
          = s * (covariance X a a * s - t ^+ 2) by ring.
move: s_ge0; rewrite le_eqVlt => /orP[/eqP s0 _|s_gt0].
  by rewrite /t covariance_diag_eq0 // expr0n /= -s0 mulr0.
by rewrite pmulr_rge0 // subr_ge0.
Qed.

(** The covariance of two features is an average over the pairs of
    samples: the products of the differences between the two samples. *)
Lemma covariance_pairs X a b :
  covariance (center X) a b
  = (\sum_p \sum_q (X p a - X q a) * (X p b - X q b)) / (n%:R ^+ 2 *+ 2).
Proof.
pose u p := center X p a; pose v p := center X p b.
have sum_u : \sum_p u p = 0.
  by rewrite -[RHS](sum_center X a); apply: eq_bigr => p _; rewrite /u mxE.
have sum_v : \sum_p v p = 0.
  by rewrite -[RHS](sum_center X b); apply: eq_bigr => p _; rewrite /v mxE.
have -> : covariance (center X) a b = (\sum_p u p * v p) / n%:R by rewrite mxE.
have -> : \sum_p \sum_q (X p a - X q a) * (X p b - X q b)
          = n%:R * (\sum_p u p * v p) *+ 2.
  rewrite (eq_bigr (fun p => n%:R * (u p * v p) + \sum_q u q * v q)).
    move=> p _.
    rewrite (eq_bigr (fun q => u p * v p + u q * v q
                               - (u p * v q + v p * u q))).
      by move=> q _; rewrite /u /v !mxE; ring.
    rewrite sumrB !big_split /= sumr_const card_ord -mulr_natl.
    by rewrite -!mulr_sumr sum_u sum_v !mulr0 addr0 subr0.
  rewrite big_split /= -mulr_sumr sumr_const card_ord.
  by rewrite -[in X in _ + X]mulr_natl mulr2n.
have [n0|n0] := eqVneq (n%:R : R) 0; last first.
  move: (\sum_p _) n0 => S; move: (n%:R) => r r0 {u v sum_u sum_v}.
  by field.
by rewrite n0 invr0 mulr0 expr0n /= mul0rn invr0 mulr0.
Qed.

End CovarianceEntries.

(** ** Variance kept and variance lost by a projection *)

Section ProjectionTheory.

Variables (R : rcfType) (n d : nat).
Implicit Types (X : 'M[R]_(n, d)) (w : 'cV[R]_d) (ps : seq (eigenpair R d)).

Lemma sorted_desc_nth ps (i j : nat) :
  sorted (fun p q : eigenpair R d => q.1 <= p.1) ps ->
  (i <= j < size ps)%N -> (nth (0, 0) ps j).1 <= (nth (0, 0) ps i).1.
Proof.
move=> sorted_ps /andP[]; rewrite leq_eqVlt => /orP[/eqP->//|lt_ij] lt_j.
have le_trans' : transitive (fun p q : eigenpair R d => q.1 <= p.1).
  by move=> q p r le_qp le_rq; apply: le_trans le_rq le_qp.
have := sorted_ps; rewrite (sorted_pairwise le_trans').
move/(pairwiseP (0, 0))/(_ i j); rewrite !inE; apply=> //.
exact: ltn_trans lt_ij lt_j.
Qed.

Lemma sum_take_spectrum ps k :
  (k <= size ps)%N ->
  \sum_(l <- take k (eigenvalues ps)) l = \sum_j (spectrum k ps) 0 j.
Proof.
move=> le_k; rewrite -map_take big_map (big_nth (0, 0)) size_take_min.
rewrite (minn_idPl le_k) big_mkord; apply: eq_bigr => j _.
by rewrite mxE nth_take.
Qed.

Lemma covariance_components X ps k :
  eigen_system (covariance (center X)) ps -> (k <= d)%N ->
  covariance (project (center X) (components k ps)) = diag_mx (spectrum k ps).
Proof.
case/and3P=> /eqP sz on_ps eig_ps le_k.
rewrite covariance_project -mulmxA (components_eigen eig_ps) ?sz //.
by rewrite mulmxA components_orthonormal ?sz // mul1mx.
Qed.

Lemma variance_components X ps k (b : 'I_k) :
  eigen_system (covariance (center X)) ps -> (k <= d)%N ->
  variance (project (center X) (components k ps)) b = (spectrum k ps) 0 b.
Proof.
move=> sys le_k; rewrite -covariance_diag_centered.
  by rewrite mu_project big1 // => a _; rewrite mu_center mul0r.
by rewrite covariance_components // mxE eqxx mulr1n.
Qed.

Lemma mean_square_trace (E : 'M[R]_(n, d)) : mean_square E = \tr (covariance E).
Proof.
rewrite /mean_square exchange_big mulr_suml; apply: eq_bigr => j _.
by rewrite mxE; congr (_ / _); apply: eq_bigr => i _; rewrite expr2.
Qed.

Lemma coordinate_dot ps w (j : 'I_d) :
  ((components d ps)^T *m w) j 0 = dot (nth (0, 0) ps j).2 w.
Proof. by rewrite mxE; apply: eq_bigr => i _; rewrite !mxE. Qed.

Lemma variance_along_spectral X ps w :
  eigen_system (covariance (center X)) ps ->
  variance (project (center X) w) 0
  = \sum_(j < d) (nth (0, 0) ps j).1 * dot (nth (0, 0) ps j).2 w ^+ 2.
Proof.
move=> sys; rewrite variance_along [covariance _](eigen_system_roundtrip sys).
set V := components d ps.
have -> : w^T *m (V *m diag_mx (spectrum d ps) *m V^T) *m w
          = (V^T *m w)^T *m diag_mx (spectrum d ps) *m (V^T *m w).
  by rewrite trmx_mul trmxK !mulmxA.
rewrite quadratic_form_diag; apply: eq_bigr => j _.
by rewrite coordinate_dot mxE.
Qed.

Lemma parseval (A : 'M[R]_d) ps w :
  eigen_system A ps -> \sum_(j < d) dot (nth (0, 0) ps j).2 w ^+ 2 = dot w w.
Proof.
case/eigen_systemP=> _ _ VVt _; set V := components d ps in VVt.
have -> : dot w w = dot (V^T *m w) (V^T *m w).
  rewrite !dotE trmx_mul trmxK mulmxA -[_ *m V *m _]mulmxA VVt mulmx1.
  by [].
by apply: eq_bigr => j _; rewrite coordinate_dot expr2.
Qed.

Lemma nth_cumsum (s : seq R) i :
  (i < size s)%N -> nth 0 (cumsum s) i = \sum_(x <- take i.+1 s) x.
Proof.
move=> lt_i; rewrite /cumsum (nth_scanl _ _ lt_i).
have foldl_sum (x : R) t : foldl +%R x t = x + \sum_(y <- t) y.
  elim: t x => [|y t IHt] x /=; first by rewrite big_nil addr0.
  by rewrite IHt big_cons addrA.
by rewrite foldl_sum add0r.
Qed.

End ProjectionTheory.

(** ** The further datasets *)

Section FurtherDatasetsTheory.

Variable R : rcfType.

Local Notation axis_pairs := (axis_pairs R).

Lemma dot_delta d (a b : 'I_d) :
  dot (delta_mx a 0 : 'cV[R]_d) (delta_mx b 0) = (a == b)%:R.
Proof.
by rewrite dotE -[(delta_mx a 0)^T]mulmx1 quadratic_form_entry mxE.
Qed.

Lemma axis_orthonormal : orthonormal axis_pairs.
Proof.
by rewrite /orthonormal /= /unit_length /orthogonal /= !dot_delta !eqxx.
Qed.

Lemma axis_eigen_system :
  eigen_system (covariance (center (scenario R))) axis_pairs.
Proof.
rewrite scenario_center scenario_covariance.
apply: scalar_eigen_system => //=; first exact: axis_orthonormal.
by rewrite !eqxx.
Qed.

Lemma axis_sorted :
  sorted (fun p q : eigenpair R 2 => q.1 <= p.1) axis_pairs.
Proof. by rewrite /= lexx. Qed.

Lemma scenario_sigma_neq0 j : sigma (scenario R) j != 0.
Proof.
rewrite /sigma sqrtr_eq0 -ltNge -covariance_center_diag scenario_center.
by rewrite scenario_covariance mxE eqxx mulr1n ltr0n.
Qed.

Lemma trend_comonotone p q :
  0 <= (trend R p 0 - trend R q 0)
       * (trend R p (lift ord0 ord0) - trend R q (lift ord0 ord0)).
Proof.
rewrite !mxE; elim/ordS_cases: p => [|p]; elim/ordS_cases: q => [|q].
all: rewrite ?ord1 /= ?subrr ?mul0r ?sub0r ?subr0 ?mulrNN ?mul1r //.
all: by rewrite ler0n.
Qed.

Lemma trend_increases :
  exists p q, 0 < (trend R p 0 - trend R q 0)
    * (trend R p (lift ord0 ord0) - trend R q (lift ord0 ord0)).
Proof.
exists (lift ord0 ord0), ord0.
by rewrite !mxE /= !subr0 mul1r ltr0n.
Qed.

End FurtherDatasetsTheory.

(** * Part III: the properties of the pipeline *)

Section Properties.

Variable R : rcfType.

Local Notation scenario := (scenario R).

(** C1: on a symmetric d x d matrix the engine returns exactly d pairs;
    their eigenvectors are unit-length and mutually orthogonal; every
    pair satisfies A v = lambda v; and A = V diag(lambda) V^T, where the
    columns of V are the eigenvectors. *)
Theorem eigendecomposition_correct d (A : 'M[R]_d) :
  A^T = A ->
  let ps := eigendecomposition A in
  let V := components d ps in
  [/\ size ps = d,
      forall i j, (i < d)%N -> (j < d)%N ->
        dot (nth (0, 0) ps i).2 (nth (0, 0) ps j).2 = (i == j)%:R,
      forall p, p \in ps -> A *m p.2 = p.1 *: p.2,
      V^T *m V = 1%:M
    & A = V *m diag_mx (spectrum d ps) *m V^T].
Proof.
move=> /eigendecompositionP sys ps V.
have /and3P[/eqP sz on_ps /allP eig_ps] := sys.
have [_ VtV _ _] := eigen_systemP sys.
split=> // [i j lt_i lt_j|p /eig_ps/eqP//|].
  by apply: orthonormal_nth; rewrite // sz.
exact: eigen_system_roundtrip.
Qed.

(** C2: project the centered data on the first k eigenvectors of its
    covariance matrix, Z = X_centered W_k.  The columns of Z have mean 0
    and the covariance matrix of Z is diagonal, with the k selected
    eigenvalues on its diagonal. *)
Theorem projection_uncorrelated n d (X : 'M[R]_(n, d)) ps k :
  eigen_system (covariance (center X)) ps -> (k <= d)%N ->
  let Z := project (center X) (components k ps) in
  [/\ forall b, mu Z b = 0,
      covariance Z = diag_mx (spectrum k ps)
    & forall a b : 'I_k,
        covariance Z a b = if a == b then nth 0 (eigenvalues ps) a else 0].
Proof.
case/and3P=> /eqP sz on_ps eig_ps le_k Z.
have le_sz : (k <= size ps)%N by rewrite sz.
have covZ : covariance Z = diag_mx (spectrum k ps).
  rewrite covariance_project -mulmxA (components_eigen eig_ps) //.
  by rewrite mulmxA components_orthonormal // mul1mx.
split=> // [b|a b].
  by rewrite mu_project big1 // => a _; rewrite mu_center mul0r.
rewrite covZ !mxE; case: eqP => [->|_]; rewrite ?mulr0n ?mulr1n //.
by rewrite (nth_map (0, 0)) // (leq_trans (ltn_ord b) le_sz).
Qed.

(** C3: the covariance matrix is Sigma = (1/n) X^T X; it is symmetric,
    Sigma_ab = Sigma_ba for all a and b, and positive semi-definite,
    v^T Sigma v >= 0 for every vector v.  This holds for every dataset,
    in particular for a centered or a standardized one. *)
Theorem covariance_symmetric_psd n d (X : 'M[R]_(n, d)) :
  [/\ covariance X = n%:R^-1 *: (X^T *m X),
      forall a b, covariance X a b = covariance X b a
    & forall v : 'cV[R]_d, 0 <= (v^T *m covariance X *m v) 0 0].
Proof.
split; first exact: covarianceE.
  by move=> a b; rewrite -{1}[covariance X]covariance_sym mxE.
exact: covariance_psd.
Qed.

(** C4: when every feature has a non-zero standard deviation, the
    standardized value is z_ij = (x_ij - mu_j) / sigma_j with mu_j the
    column mean and sigma_j the population standard deviation (the squared
    deviations are divided by n), and every standardized feature has mean
    0 and standard deviation 1. *)
Theorem zscore_standardizes n d (X : 'M[R]_(n, d)) :
  (forall j, sigma X j != 0) ->
  [/\ forall i j, zscore X i j = (X i j - mu X j) / sigma X j,
      forall j, mu X j = (\sum_i X i j) / n%:R,
      forall j,
        sigma X j = Num.sqrt ((\sum_i (X i j - mu X j) ^+ 2) / n%:R),
      forall j, mu (zscore X) j = 0
    & forall j, sigma (zscore X) j = 1].
Proof.
move=> sigma_neq0; split=> // [i j|j|j]; first by rewrite mxE.
  exact: mu_zscore.
by rewrite /sigma variance_zscore ?sqrtr1.
Qed.

(** C5: with all d components, projecting and mapping back recovers the
    centered data: (X_centered W) W^T = X_centered. *)
Theorem full_projection_roundtrip n d (X : 'M[R]_(n, d)) ps :
  eigen_system (covariance (center X)) ps ->
  reconstruct (project (center X) (components d ps)) (components d ps)
  = center X.
Proof.
case/eigen_systemP=> _ _ WWt _.
by rewrite /reconstruct /project -mulmxA WWt mulmx1.
Qed.

(** C6, amended: when the eigenvalues of the covariance matrix do not sum
    to zero, each explained-variance ratio is its eigenvalue divided by
    the sum of all d eigenvalues, the d ratios sum to 1, and their
    running totals never decrease. *)
Theorem explained_variance_ratio_total n d (X : 'M[R]_(n, d)) ps :
  eigen_system (covariance X) ps ->
  total_variance (eigenvalues ps) != 0 ->
  let r := explained_variance_ratio (eigenvalues ps) in
  [/\ size r = d,
      forall i, (i < d)%N ->
        nth 0 r i = nth 0 (eigenvalues ps) i / total_variance (eigenvalues ps),
      \sum_(x <- r) x = 1
    & sorted <=%R (cumsum r)].
Proof.
move=> sys tot_neq0 r; have /and3P[/eqP sz _ _] := sys.
have lams_ge0 : all (>= 0) (eigenvalues ps).
  rewrite all_map; apply/allP => p p_in /=.
  exact: eigenvalue_ge0 sys p_in.
split; first by rewrite !size_map.
- by move=> i lt_i; rewrite (nth_map 0) // size_map sz.
- exact: sum_explained_variance_ratio.
- exact/cumsum_sorted/explained_variance_ratio_ge0.
Qed.

(** C7: the pairs returned by the engine are the solver's pairs in order
    of decreasing eigenvalue; two pairs with the same eigenvalue stand in
    the order of their positions before the sort; and the result is
    determined by that order alone: every arrangement of the tagged pairs
    that respects it is the one returned. *)
Theorem eigendecomposition_sorted d (A : 'M[R]_d) :
  let ps := eigen_solve A in
  let out := eigendecomposition A in
  [/\ perm_eq out ps,
      sorted (fun p q : eigenpair R d => q.1 <= p.1) out,
      out = unzip2 (sort_indexed ps),
      forall i j : nat, (i < j < size ps)%N ->
        let a := nth (0%N, (0, 0)) (sort_indexed ps) i in
        let b := nth (0%N, (0, 0)) (sort_indexed ps) j in
        b.2.1 <= a.2.1 /\ (a.2.1 = b.2.1 -> (a.1 < b.1)%N)
    & forall t, perm_eq t (indexed ps) -> sorted (@eigen_order R d) t ->
        unzip2 t = out].
Proof.
by move=> ps out; have [perm_out desc ties unique] := sort_eigenpairs_spec ps.
Qed.


(** C9: the dataset [[2,0],[0,2],[-2,0],[0,-2]] is already centered; its
    covariance matrix is diag(2,2); both eigenvalues of every eigen
    decomposition are 2; every orthonormal pair of vectors, paired with
    the eigenvalue 2, is such a decomposition; and the explained variance
    ratios, those of the engine's pairs included, are [1/2, 1/2]. *)
Theorem scenario_equal_variance :
  let S := covariance (center scenario) in
  [/\ center scenario = scenario,
      S = diag_mx (const_mx 2),
      forall ps, eigen_system S ps -> eigenvalues ps = [:: 2; 2],
      forall u v, orthonormal [:: (2, u); (2, v)] ->
        eigen_system S [:: (2, u); (2, v)]
    & (forall ps, eigen_system S ps ->
         explained_variance_ratio (eigenvalues ps) = [:: 2^-1; 2^-1]) /\
      explained_variance_ratio (eigenvalues (eigendecomposition S))
      = [:: 2^-1; 2^-1]].
Proof.
rewrite scenario_center /=.
have ratios ps : eigen_system (covariance scenario) ps ->
    explained_variance_ratio (eigenvalues ps) = [:: 2^-1; 2^-1].
  move/scenario_eigenvalues->.
  rewrite /explained_variance_ratio /total_variance /= !big_cons big_nil.
  by congr [:: _; _]; field.
split=> //.
- by rewrite scenario_covariance diag_const_mx.
- exact: scenario_eigenvalues.
- move=> u v on_uv; rewrite scenario_covariance.
  by apply: scalar_eigen_system => //=; rewrite eqxx.
- by split=> //; apply/ratios/eigendecompositionP/covariance_sym.
Qed.

(** C10: the covariance matrix of fully standardized data has ones on its
    diagonal, and therefore the d eigenvalues of any of its eigen
    decompositions sum to d. *)
Theorem standardized_covariance_unit_diagonal n d (X : 'M[R]_(n, d)) :
  (forall j, sigma X j != 0) ->
  (forall j, covariance (zscore X) j j = 1) /\
  (forall ps, eigen_system (covariance (zscore X)) ps ->
     total_variance (eigenvalues ps) = d%:R).
Proof.
move=> sigma_neq0.
have diag1 j : covariance (zscore X) j j = 1.
  by rewrite covariance_diag_centered ?mu_zscore // variance_zscore.
split=> // ps /sum_eigenvalues_trace; rewrite /total_variance => ->.
by rewrite /mxtrace (eq_bigr (fun=> 1)) // sumr_const card_ord.
Qed.

End Properties.

(** ** Worked examples over the real algebraic numbers *)

Section Examples.

Local Notation sample := (sample algR).
Local Notation sample_pairs := (sample_pairs algR).
Local Notation flat := (flat algR).
Local Notation flat_pairs := (flat_pairs algR).

Lemma sample_centered_system :
  eigen_system (covariance (center sample)) sample_pairs.
Proof. by rewrite sample_center sample_eigen_system. Qed.

Lemma sample_total_variance : total_variance (eigenvalues sample_pairs) != 0.
Proof. by rewrite /total_variance /= big_cons big_nil addr0 oner_eq0. Qed.

Lemma eigendecomposition_correct_witness :
  let A := covariance sample in
  let V := components 1 (eigendecomposition A) in
  A^T = A /\
  A = V *m diag_mx (spectrum 1 (eigendecomposition A)) *m V^T.
Proof.
have symA := covariance_sym sample.
by have [_ _ _ _ roundtrip] := eigendecomposition_correct symA.
Defined.

Lemma projection_uncorrelated_witness :
  [/\ eigen_system (covariance (center sample)) sample_pairs,
      (1 <= 1)%N
    & covariance (project (center sample) (components 1 sample_pairs))
      = diag_mx (spectrum 1 sample_pairs)].
Proof.
have le11 : (1 <= 1)%N by [].
have [_ covZ _] := projection_uncorrelated sample_centered_system le11.
by split=> //; exact: sample_centered_system.
Defined.

Lemma zscore_standardizes_witness :
  [/\ forall j, sigma sample j != 0,
      forall j, mu (zscore sample) j = 0
    & forall j, sigma (zscore sample) j = 1].
Proof.
have sigma_neq0 := @sample_sigma_neq0 algR.
by have [_ _ _ mu0 sigma1] := zscore_standardizes sigma_neq0.
Defined.

Lemma full_projection_roundtrip_witness :
  eigen_system (covariance (center sample)) sample_pairs /\
  reconstruct (project (center sample) (components 1 sample_pairs))
    (components 1 sample_pairs) = center sample.
Proof.
split; first exact: sample_centered_system.
exact: full_projection_roundtrip sample_centered_system.
Defined.

Lemma explained_variance_ratio_total_witness :
  [/\ eigen_system (covariance sample) sample_pairs,
      total_variance (eigenvalues sample_pairs) != 0
    & \sum_(x <- explained_variance_ratio (eigenvalues sample_pairs)) x = 1].
Proof.
have sys := sample_eigen_system algR.
have [_ _ sum1 _] := explained_variance_ratio_total sys sample_total_variance.
by split=> //; exact: sample_total_variance.
Defined.

(** The dataset [[3],[3]] has a single, constant feature.  Centered, it
    is the zero dataset; its covariance matrix is zero, and so is the
    eigenvalue of its one eigenpair.  The sum of all eigenvalues is zero,
    the explained-variance ratio is 0/0, and the ratios do not sum to 1. *)
Lemma explained_variance_ratio_zero_total :
  [/\ eigen_system (covariance (center flat)) flat_pairs,
      total_variance (eigenvalues flat_pairs) = 0
    & \sum_(x <- explained_variance_ratio (eigenvalues flat_pairs)) x != 1].
Proof.
split; first exact: flat_eigen_system.
  by rewrite /total_variance /= big_cons big_nil addr0.
rewrite /explained_variance_ratio /= big_cons big_nil mul0r addr0.
by rewrite eq_sym oner_eq0.
Qed.



Lemma standardized_covariance_unit_diagonal_witness :
  (forall j, sigma sample j != 0) /\
  (forall j, covariance (zscore sample) j j = 1).
Proof.
have sigma_neq0 := @sample_sigma_neq0 algR.
by have [diag1 _] := standardized_covariance_unit_diagonal sigma_neq0.
Defined.

End Examples.

(** * Part IV: further properties of the pipeline *)

Section FurtherProperties.

Variable R : rcfType.

(** X1: centering removes the mean of every feature, of whatever dataset;
    centering twice is centering once; and centering standardized data
    changes nothing. *)
Theorem center_zero_mean n d (X : 'M[R]_(n, d)) :
  [/\ forall j, mu (center X) j = 0,
      forall j, \sum_i center X i j = 0,
      center (center X) = center X
    & center (zscore X) = zscore X].
Proof.
split; [exact: mu_center | | exact: center_center | exact: center_zscore].
by move=> j; rewrite -[RHS](sum_center X j); apply: eq_bigr => i _; rewrite mxE.
Qed.

(** X2: mean shifts do not change the variance: adding a constant b_j to
    every value of feature j leaves the centered data, the variances, the
    standard deviations and the covariance matrix of the centered data
    unchanged. *)
Theorem shift_invariance n d (b : 'rV[R]_d) (X : 'M[R]_(n, d)) :
  [/\ center (shift b X) = center X,
      forall j, variance (shift b X) j = variance X j,
      forall j, sigma (shift b X) j = sigma X j
    & covariance (center (shift b X)) = covariance (center X)].
Proof.
have eq_center : center (shift b X) = center X.
  by apply/matrixP => i j; rewrite center_rescale mxE mul1r.
have eq_var j : variance (shift b X) j = variance X j.
  by rewrite variance_rescale mxE expr1n mul1r.
split=> // [j|]; first by rewrite /sigma eq_var.
by rewrite eq_center.
Qed.

(** X3: z-scores do not depend on the units of the features: multiplying
    feature j by a positive a_j and adding b_j to it leaves the
    standardized data unchanged. *)
Theorem zscore_unit_invariance n d (a b : 'rV[R]_d) (X : 'M[R]_(n, d)) :
  (forall j, 0 < a 0 j) -> zscore (rescale a b X) = zscore X.
Proof.
move=> a_gt0; apply/matrixP => i j.
rewrite !zscoreE center_rescale sigma_rescale gtr0_norm //.
by rewrite -mulf_div divff ?mul1r // gt_eqF.
Qed.

(** X4: standardizing is idempotent: when every feature has a non-zero
    standard deviation, the z-scores of the z-scores are the z-scores. *)
Theorem zscore_idempotent n d (X : 'M[R]_(n, d)) :
  (forall j, sigma X j != 0) -> zscore (zscore X) = zscore X.
Proof.
move=> sigma_neq0; apply/matrixP => i j.
have sigma1 : sigma (zscore X) j = 1.
  by rewrite /sigma variance_zscore ?sqrtr1.
by rewrite [LHS]mxE mu_zscore subr0 sigma1 divr1.
Qed.

(** X5: the diagonal of the covariance matrix of the centered data holds
    the variances of the features, and an off-diagonal entry is bounded by
    the two variances: Sigma_ab ^ 2 <= Sigma_aa Sigma_bb, so that
    |Sigma_ab| <= sigma_a sigma_b. *)
Theorem covariance_entries n d (X : 'M[R]_(n, d)) (a b : 'I_d) :
  [/\ covariance (center X) a a = variance X a,
      covariance (center X) a b ^+ 2 <= variance X a * variance X b
    & `|covariance (center X) a b| <= sigma X a * sigma X b].
Proof.
have cs : covariance (center X) a b ^+ 2 <= variance X a * variance X b.
  by rewrite -!covariance_center_diag covariance_cauchy_schwarz.
split=> //; first exact: covariance_center_diag.
rewrite -sqrtr_sqr /sigma -sqrtrM ?variance_ge0 //.
by rewrite ler_wsqrtr.
Qed.

(** X6: features that increase together have a positive covariance: when
    the values of features a and b never move in opposite directions
    between two samples, their covariance is not negative, and it is
    positive as soon as both features differ between some two samples. *)
Theorem covariance_comonotone n d (X : 'M[R]_(n, d)) (a b : 'I_d) :
  (forall p q, 0 <= (X p a - X q a) * (X p b - X q b)) ->
  0 <= covariance (center X) a b /\
  ((exists p q, 0 < (X p a - X q a) * (X p b - X q b)) ->
   0 < covariance (center X) a b).
Proof.
move=> mono; rewrite covariance_pairs; split=> [|[p [q pos_pq]]].
  rewrite divr_ge0 ?mulrn_wge0 ?sqr_ge0 //.
  by apply: sumr_ge0 => p _; apply: sumr_ge0 => q _.
have n_gt0 : (0 < n)%N by case: n p {X mono q pos_pq} => [[]|].
rewrite divr_gt0 ?pmulrn_lgt0 ?exprn_gt0 ?ltr0n //.
rewrite (bigD1 p) //= ltr_wpDr //.
  by apply: sumr_ge0 => p' _; apply: sumr_ge0 => q' _.
rewrite (bigD1 q) //= ltr_wpDr //.
by apply: sumr_ge0 => q' _.
Qed.

(** X7: the eigenvalues of the covariance matrix of the centered data sum
    to the total variance of the dataset, the sum of the variances of its
    features. *)
Theorem total_variance_features n d (X : 'M[R]_(n, d)) ps :
  eigen_system (covariance (center X)) ps ->
  total_variance (eigenvalues ps) = \sum_j variance X j.
Proof.
move/sum_eigenvalues_trace; rewrite /total_variance => ->.
by apply: eq_bigr => j _; rewrite covariance_center_diag.
Qed.

(** X8: on standardized data every feature contributes one unit of
    variance: when no feature is constant the eigenvalues of the
    covariance matrix of the z-scores sum to the number d of features,
    and the explained-variance ratio of a component is its eigenvalue
    divided by d. *)
Theorem standardized_total_variance n d (X : 'M[R]_(n, d)) ps :
  (forall j, sigma X j != 0) ->
  eigen_system (covariance (center (zscore X))) ps ->
  total_variance (eigenvalues ps) = d%:R /\
  explained_variance_ratio (eigenvalues ps)
  = [seq l / d%:R | l <- eigenvalues ps].
Proof.
move=> sigma_neq0 sys.
have total_d : total_variance (eigenvalues ps) = d%:R.
  rewrite /total_variance (sum_eigenvalues_trace sys) /mxtrace.
  rewrite (eq_bigr (fun=> 1)) ?sumr_const ?card_ord // => j _.
  by rewrite covariance_center_diag variance_zscore.
by split=> //; rewrite /explained_variance_ratio total_d.
Qed.

(** X9: the axes in turn explain as much variance as possible: component
    k + 1 of a sorted decomposition is a unit vector orthogonal to the k
    components before it, the variance of the data along it is its
    eigenvalue, and along every other unit vector orthogonal to these k
    components the variance of the data is at most that eigenvalue.  For
    k = 0 the first component carries the most variance of all
    directions. *)
Theorem component_max_variance n d (X : 'M[R]_(n, d)) ps k :
  eigen_system (covariance (center X)) ps ->
  sorted (fun p q : eigenpair R d => q.1 <= p.1) ps -> (k < d)%N ->
  let v j := (nth (0, 0) ps j).2 in
  let along w := variance (project (center X) w) 0 in
  [/\ dot (v k) (v k) = 1,
      forall j, (j < k)%N -> dot (v j) (v k) = 0,
      along (v k) = (nth (0, 0) ps k).1
    & forall w, dot w w = 1 -> (forall j, (j < k)%N -> dot (v j) w = 0) ->
      along w <= along (v k)].
Proof.
move=> sys sorted_ps lt_k v along; have /and3P[/eqP sz on_ps eig_ps] := sys.
have lt_sz : (k < size ps)%N by rewrite sz.
have unit_k : dot (v k) (v k) = 1 by rewrite /v orthonormal_nth ?eqxx.
have along_k : along (v k) = (nth (0, 0) ps k).1.
  apply: variance_along_eigenvector; last by rewrite /unit_length unit_k.
  exact: (all_nthP (0, 0) eig_ps).
split=> // [j lt_jk|w w1 orth_w].
  by rewrite /v orthonormal_nth ?(ltn_trans lt_jk) // (ltn_eqF lt_jk).
rewrite along_k /along (variance_along_spectral _ sys).
rewrite -[leRHS]mulr1 -w1 -(parseval w sys) mulr_sumr.
apply: ler_sum => j _; have [lt_jk|le_kj] := ltnP j k.
  by rewrite orth_w // expr0n /= !mulr0.
by rewrite ler_wpM2r ?sqr_ge0 // sorted_desc_nth // le_kj sz /=.
Qed.

(** X10: with all d components the projection is a rotation of the data:
    the inner products between the projected samples are those between
    the centered samples. *)
Theorem full_projection_gram n d (X : 'M[R]_(n, d)) ps :
  eigen_system (covariance (center X)) ps ->
  let Z := project (center X) (components d ps) in
  Z *m Z^T = center X *m (center X)^T.
Proof.
case/eigen_systemP=> _ _ WWt _ /=.
rewrite /project trmx_mul mulmxA.
by rewrite -[_ *m components d ps *m _]mulmxA WWt mulmx1.
Qed.

(** X11: what the projection on the first k components loses: the mean
    squared distance between the centered samples and their
    reconstructions from k components is the sum of the d - k eigenvalues
    that were left out. *)
Theorem reconstruction_error n d (X : 'M[R]_(n, d)) ps k :
  eigen_system (covariance (center X)) ps -> (k <= d)%N ->
  mean_square (residual (center X) (components k ps))
  = \sum_(l <- drop k (eigenvalues ps)) l.
Proof.
move=> sys le_k; have /and3P[/eqP sz on_ps eig_ps] := sys.
set S := covariance (center X); set W := components k ps.
have WtW : W^T *m W = 1%:M by rewrite components_orthonormal ?sz.
have SW : S *m W = W *m diag_mx (spectrum k ps).
  by rewrite components_eigen ?sz.
pose Q : 'M[R]_d := 1%:M - W *m W^T.
have symQ : Q^T = Q.
  by rewrite /Q raddfB /= trmx1 trmx_mul trmxK.
have QQ : Q *m Q = Q.
  rewrite /Q mulmxBl !mulmxBr !mul1mx mulmx1 mulmxA -[W *m _ *m W]mulmxA WtW.
  by rewrite mulmx1 subrr subr0.
have -> : residual (center X) W = project (center X) Q.
  by rewrite /residual /reconstruct /project /Q mulmxBr mulmx1 mulmxA.
rewrite mean_square_trace covariance_project symQ -/S.
rewrite mxtrace_mulC mulmxA QQ mxtrace_mulC /Q mulmxBr mulmx1.
rewrite raddfB /= -(sum_eigenvalues_trace sys) mulmxA SW mxtrace_mulC.
rewrite mulmxA WtW mul1mx mxtrace_diag -sum_take_spectrum ?sz //.
rewrite -[in X in X - _](cat_take_drop k (eigenvalues ps)) big_cat /=.
by rewrite addrC addKr.
Qed.

(** X12: the new features are ordered by the variance they capture: the
    variance of the b-th column of Z = X_centered W_k is the b-th
    eigenvalue, and with the eigenpairs sorted no column has more variance
    than a column before it. *)
Theorem projected_variances_ordered n d (X : 'M[R]_(n, d)) ps k :
  eigen_system (covariance (center X)) ps ->
  sorted (fun p q : eigenpair R d => q.1 <= p.1) ps -> (k <= d)%N ->
  let Z := project (center X) (components k ps) in
  (forall b : 'I_k, variance Z b = nth 0 (eigenvalues ps) b) /\
  (forall a b : 'I_k, (a <= b)%N -> variance Z b <= variance Z a).
Proof.
move=> sys sorted_ps le_k Z; have /and3P[/eqP sz _ _] := sys.
have lt_sz (b : 'I_k) : (b < size ps)%N.
  by rewrite sz (leq_trans (ltn_ord b)).
split=> [b|a b le_ab]; rewrite /Z !variance_components // !mxE.
  by rewrite (nth_map (0, 0)).
by rewrite sorted_desc_nth // le_ab lt_sz.
Qed.

(** X13: the cumulative explained variance read after k + 1 components is
    the share of the total variance of the dataset that the projection on
    these components keeps. *)
Theorem cumulative_explained_variance n d (X : 'M[R]_(n, d)) ps k :
  eigen_system (covariance (center X)) ps -> (k < d)%N ->
  let Z := project (center X) (components k.+1 ps) in
  nth 0 (cumsum (explained_variance_ratio (eigenvalues ps))) k
  = (\sum_b variance Z b) / (\sum_j variance X j).
Proof.
move=> sys lt_k Z; have /and3P[/eqP sz _ _] := sys.
rewrite nth_cumsum ?size_map ?sz // -map_take big_map -mulr_suml.
rewrite sum_take_spectrum ?sz //; congr (_ / _).
  by apply: eq_bigr => b _; rewrite /Z variance_components.
rewrite /total_variance (sum_eigenvalues_trace sys).
by apply: eq_bigr => j _; rewrite covariance_center_diag.
Qed.

End FurtherProperties.

(** ** Further worked examples over the real algebraic numbers *)

Section FurtherExamples.

Local Notation scenario := (scenario algR).
Local Notation trend := (trend algR).
Local Notation axis_pairs := (axis_pairs algR).
Local Notation standardized_pairs :=
  (eigendecomposition (covariance (center (zscore scenario)))).
Local Notation desc := (fun p q : eigenpair algR 2 => q.1 <= p.1).

Lemma zscore_unit_invariance_witness :
  (forall j, 0 < (const_mx 2 : 'rV[algR]_2) 0 j) /\
  zscore (rescale (const_mx 2) (const_mx 3) scenario) = zscore scenario.
Proof.
have pos2 j : 0 < (const_mx 2 : 'rV[algR]_2) 0 j by rewrite mxE ltr0n.
by split=> //; apply: zscore_unit_invariance.
Defined.

Lemma zscore_idempotent_witness :
  (forall j, sigma scenario j != 0) /\
  zscore (zscore scenario) = zscore scenario.
Proof.
have sigma_neq0 := @scenario_sigma_neq0 algR.
by split=> //; apply: zscore_idempotent.
Defined.

Lemma covariance_comonotone_witness :
  (forall p q, 0 <= (trend p 0 - trend q 0)
                    * (trend p (lift ord0 ord0) - trend q (lift ord0 ord0))) /\
  0 < covariance (center trend) 0 (lift ord0 ord0).
Proof.
have mono := @trend_comonotone algR.
have [_ cov_gt0] := covariance_comonotone mono.
by split=> //; apply: cov_gt0; apply: trend_increases.
Defined.

Lemma total_variance_features_witness :
  eigen_system (covariance (center scenario)) axis_pairs /\
  total_variance (eigenvalues axis_pairs) = \sum_j variance scenario j.
Proof.
have sys := axis_eigen_system algR.
by split=> //; apply: total_variance_features.
Defined.

Lemma standardized_total_variance_witness :
  [/\ forall j, sigma scenario j != 0,
      eigen_system (covariance (center (zscore scenario))) standardized_pairs
    & total_variance (eigenvalues standardized_pairs) = 2].
Proof.
have sigma_neq0 := @scenario_sigma_neq0 algR.
have sys := eigendecompositionP (covariance_sym (center (zscore scenario))).
by have [total2 _] := standardized_total_variance sigma_neq0 sys.
Defined.

Lemma component_max_variance_witness :
  [/\ eigen_system (covariance (center scenario)) axis_pairs,
      sorted desc axis_pairs, (1 < 2)%N
    & forall w, dot w w = 1 ->
      (forall j, (j < 1)%N -> dot (nth (0, 0) axis_pairs j).2 w = 0) ->
      variance (project (center scenario) w) 0
      <= variance (project (center scenario) (nth (0, 0) axis_pairs 1).2) 0].
Proof.
have sys := axis_eigen_system algR.
have sorted_axes := axis_sorted algR.
have lt12 : (1 < 2)%N by [].
by have [_ _ _ best] := component_max_variance sys sorted_axes lt12.
Defined.

Lemma full_projection_gram_witness :
  eigen_system (covariance (center scenario)) axis_pairs /\
  project (center scenario) (components 2 axis_pairs)
    *m (project (center scenario) (components 2 axis_pairs))^T
  = center scenario *m (center scenario)^T.
Proof.
have sys := axis_eigen_system algR.
by split=> //; apply: full_projection_gram.
Defined.

Lemma reconstruction_error_witness :
  [/\ eigen_system (covariance (center scenario)) axis_pairs, (1 <= 2)%N
    & mean_square (residual (center scenario) (components 1 axis_pairs))
      = \sum_(l <- drop 1 (eigenvalues axis_pairs)) l].
Proof.
have sys := axis_eigen_system algR.
have le12 : (1 <= 2)%N by [].
by split=> //; apply: reconstruction_error.
Defined.

Lemma projected_variances_ordered_witness :
  [/\ eigen_system (covariance (center scenario)) axis_pairs,
      sorted desc axis_pairs, (2 <= 2)%N
    & forall b : 'I_2,
      variance (project (center scenario) (components 2 axis_pairs)) b
      = nth 0 (eigenvalues axis_pairs) b].
Proof.
have sys := axis_eigen_system algR.
have sorted_axes := axis_sorted algR.
have le22 : (2 <= 2)%N by [].
by have [var_eig _] := projected_variances_ordered sys sorted_axes le22.
Defined.

Lemma cumulative_explained_variance_witness :
  [/\ eigen_system (covariance (center scenario)) axis_pairs, (0 < 2)%N
    & nth 0 (cumsum (explained_variance_ratio (eigenvalues axis_pairs))) 0
      = (\sum_b variance
           (project (center scenario) (components 1 axis_pairs)) b)
        / (\sum_j variance scenario j)].
Proof.
have sys := axis_eigen_system algR.
have lt02 : (0 < 2)%N by [].
by split=> //; apply: cumulative_explained_variance.
Defined.

End FurtherExamples.
